(** * Verification of the JobHunter task-graph execution engine

    Shallow embedding of:
    - the dependency-level BFS of the [TaskGraph] component
      (frontend task-graph view, [graphNodes] memo);
    - [executeStep] of the content script (retry loop, [search] and
      [loop] actions);
    - the background service worker's persistent task monitor
      ([startPollingTask], [stopPollingTask], [getTaskState], the startup
      cleanup) and the popup's [pollTaskStatus];
    - the [levelGroups] of the [TaskGraph] view, the [executeSteps] handler
      and the step reports, the worker's [clearTaskState],
      [stopTaskPolling] and [stepResult] handlers, the popup's
      [saveToHistory] and the plan preview's [formatDuration]. *)

From Stdlib Require Import ZArith Lia Sorting.Sorted.
From stdpp Require Import base list gmap sets strings sorting.
Import ListNotations.

Open Scope string_scope.
Open Scope list_scope.

(* ================================================================= *)
(** ** Task graph leveling *)

Module TaskGraph.

(** [TaskStep] reduced to the two fields the leveling reads. *)
Record TaskStep := mkStep {
  id : string;
  dependencies : list string
}.

(** [GraphNode]: [parallelGroup = Some k] stands for the string
    [`level-${k}`], [None] for [undefined]. *)
Record GraphNode := mkNode {
  step : TaskStep;
  level : nat;
  parallelGroup : option nat
}.

(** [currentLevelSteps.forEach(...)]: push every step whose id is not yet
    in [processedIds], and add its id. *)
Fixpoint place_level (lvl : nat) (grp : option nat) (cur : list TaskStep)
    (processed : gset string) (nodes : list GraphNode)
    : gset string * list GraphNode :=
  match cur with
  | [] => (processed, nodes)
  | s :: rest =>
      if bool_decide (id s ∈ processed)
      then place_level lvl grp rest processed nodes
      else place_level lvl grp rest ({[id s]} ∪ processed)
             (nodes ++ [mkNode s lvl grp])
  end.

(** [steps.filter(s => !processedIds.has(s.id) &&
                        s.dependencies.every(dep => processedIds.has(dep)))] *)
Definition next_level (steps : list TaskStep) (processed : gset string)
    : list TaskStep :=
  List.filter (fun s => negb (bool_decide (id s ∈ processed)) &&
                        forallb (fun d => bool_decide (d ∈ processed))
                                (dependencies s)) steps.

(** [steps.filter(s => s.dependencies.length === 0)] *)
Definition root_steps (steps : list TaskStep) : list TaskStep :=
  List.filter (fun s => Nat.eqb (length (dependencies s)) 0) steps.

(** The [while (currentLevelSteps.length > 0)] loop.  The fuel only bounds
    the recursion; [graphNodes] gives one more than the number of steps,
    which is never exhausted (see [bfs_inv_final]). *)
Fixpoint bfs (fuel : nat) (steps : list TaskStep) (lvl : nat)
    (cur : list TaskStep) (processed : gset string) (nodes : list GraphNode)
    : list GraphNode :=
  match fuel with
  | O => nodes
  | S fuel' =>
      match cur with
      | [] => nodes
      | _ :: _ =>
          let grp := if Nat.ltb 1 (length cur) then Some lvl else None in
          let '(processed', nodes') := place_level lvl grp cur processed nodes in
          bfs fuel' steps (S lvl) (next_level steps processed') processed' nodes'
      end
  end.

Definition graphNodes (steps : list TaskStep) : list GraphNode :=
  bfs (S (length steps)) steps 0 (root_steps steps) ∅ [].

(** The graph is acyclic: some rank decreases along every dependency. *)
Definition acyclic (steps : list TaskStep) : Prop :=
  exists rank : string -> nat,
    forall s, In s steps -> forall d, In d (dependencies s) -> rank d < rank (id s).

(** Every dependency id names a step of the graph. *)
Definition deps_resolve (steps : list TaskStep) : Prop :=
  forall s, In s steps -> forall d, In d (dependencies s) ->
    exists t, In t steps /\ id t = d.

(** A set of ids closed under "has a dependency in the set": the ids on a
    dependency cycle, together with the steps depending on one. *)
Definition blocked (steps : list TaskStep) (B : list string) : Prop :=
  forall s, In s steps -> In (id s) B -> exists d, In d (dependencies s) /\ In d B.

(** A set of ids of independent steps: closed under dependencies, every
    dependency names a step of the graph, and some rank decreases along
    each dependency (no cycle is reached). *)
Definition grounded (steps : list TaskStep) (G : list string) : Prop :=
  exists rank : string -> nat,
    forall s, In s steps -> In (id s) G -> forall d, In d (dependencies s) ->
      In d G /\ (exists t, In t steps /\ id t = d) /\ rank d < rank (id s).

(** *** Lemmas about one round *)

Lemma place_level_frame lvl grp cur processed nodes p' n' :
  place_level lvl grp cur processed nodes = (p', n') ->
  (forall x, x ∈ p' <-> x ∈ processed \/ exists s, In s cur /\ id s = x) /\
  exists added, n' = nodes ++ added /\
    forall m, In m added ->
      In (step m) cur /\ level m = lvl /\ parallelGroup m = grp /\
      id (step m) ∉ processed.
Proof.
  revert processed nodes.
  induction cur as [|s rest IH]; intros processed nodes Hpl; simpl in Hpl.
  - inversion Hpl; subst. split.
    + intros x. split; [tauto|]. intros [Hx|(s & [] & _)]. exact Hx.
    + exists []. split; [by rewrite app_nil_r|]. intros m [].
  - case_bool_decide as Hin.
    + destruct (IH _ _ Hpl) as [Hset (added & -> & Hadd)]. split.
      * intros x. rewrite Hset. split.
        -- intros [Hx|(t & Ht & <-)]; [by left|]. right. exists t. simpl; auto.
        -- intros [Hx|(t & [<-|Ht] & <-)]; [by left|by left|].
           right. exists t. auto.
      * exists added. split; [done|]. intros m Hm.
        destruct (Hadd m Hm) as (H1 & H2 & H3 & H4). simpl; auto.
    + destruct (IH _ _ Hpl) as [Hset (added & -> & Hadd)]. split.
      * intros x. rewrite Hset. split.
        -- intros [Hx|(t & Ht & <-)].
           ++ apply elem_of_union in Hx as [Hx|Hx].
              ** apply elem_of_singleton in Hx as ->. right. exists s. simpl; auto.
              ** by left.
           ++ right. exists t. simpl; auto.
        -- intros [Hx|(t & [<-|Ht] & <-)].
           ++ left. set_solver.
           ++ left. set_solver.
           ++ right. exists t. auto.
      * exists (mkNode s lvl grp :: added). split; [by rewrite <- app_assoc|].
        intros m [<-|Hm]; [simpl; auto|].
        destruct (Hadd m Hm) as (H1 & H2 & H3 & H4).
        repeat split; simpl; auto. set_solver.
Qed.

Lemma place_level_set lvl grp cur processed nodes p' n' :
  place_level lvl grp cur processed nodes = (p', n') ->
  (forall x, x ∈ processed <-> exists m, In m nodes /\ id (step m) = x) ->
  NoDup (map (fun m => id (step m)) nodes) ->
  (forall x, x ∈ p' <-> exists m, In m n' /\ id (step m) = x) /\
  NoDup (map (fun m => id (step m)) n') /\
  match cur with
  | s :: _ => id s ∉ processed -> length nodes < length n'
  | [] => True
  end.
Proof.
  revert processed nodes.
  induction cur as [|s rest IH]; intros processed nodes Hpl Hset Hnd; simpl in Hpl.
  - inversion Hpl; subst. auto.
  - case_bool_decide as Hin.
    + destruct (IH _ _ Hpl Hset Hnd) as (H1 & H2 & _).
      split; [done|split; [done|]]. simpl. intros Hn. contradiction.
    + assert (Hset' : forall x, x ∈ {[id s]} ∪ processed <->
               exists m, In m (nodes ++ [mkNode s lvl grp]) /\ id (step m) = x).
      { intros x. rewrite elem_of_union, elem_of_singleton, Hset. split.
        - intros [->|(m & Hm & <-)].
          + exists (mkNode s lvl grp). rewrite in_app_iff. simpl; auto.
          + exists m. rewrite in_app_iff. auto.
        - intros (m & Hm & <-). apply in_app_iff in Hm as [Hm|[<-|[]]].
          + right. eauto.
          + left. done. }
      assert (Hnd' : NoDup (map (fun m => id (step m)) (nodes ++ [mkNode s lvl grp]))).
      { rewrite map_app. apply NoDup_app. split; [done|]. split.
        - intros x Hx Hx'. simpl in Hx'. apply list_elem_of_singleton in Hx' as ->.
          apply Hin, Hset. apply list_elem_of_In, in_map_iff in Hx.
          destruct Hx as (m & Hm & Hm'). eauto.
        - simpl. constructor; [set_solver|constructor]. }
      destruct (IH _ _ Hpl Hset' Hnd') as (H1 & H2 & _).
      destruct (place_level_frame _ _ _ _ _ _ _ Hpl) as [_ (added & -> & _)].
      split; [done|split; [done|]]. simpl. intros _.
      rewrite !length_app. simpl. lia.
Qed.


(** *** The loop invariant *)

Definition bfs_inv (steps : list TaskStep) (lvl : nat) (cur : list TaskStep)
    (processed : gset string) (nodes : list GraphNode) : Prop :=
  (forall x, x ∈ processed <-> exists m, In m nodes /\ id (step m) = x) /\
  NoDup (map (fun m => id (step m)) nodes) /\
  (forall m, In m nodes -> In (step m) steps /\ level m < lvl) /\
  (forall m, In m nodes -> (level m = 0 <-> dependencies (step m) = [])) /\
  (forall m, In m nodes -> forall d, In d (dependencies (step m)) ->
     exists m', In m' nodes /\ id (step m') = d /\ level m' < level m) /\
  (0 < lvl -> forall s, In s steps -> dependencies s = [] -> id s ∈ processed) /\
  ((lvl = 0 /\ cur = root_steps steps /\ nodes = []) \/
   (0 < lvl /\ cur = next_level steps processed)).

Lemma NoDup_map_in_inj {A B} (f : A -> B) (l : list A) x y :
  NoDup (map f l) -> In x l -> In y l -> f x = f y -> x = y.
Proof.
  induction l as [|a l IH]; simpl; [tauto|].
  intros Hnd Hx Hy Hf. apply NoDup_cons in Hnd as [Ha Hnd].
  destruct Hx as [<-|Hx], Hy as [<-|Hy]; auto.
  - exfalso. apply Ha. apply list_elem_of_In, in_map_iff. eauto.
  - exfalso. apply Ha. apply list_elem_of_In, in_map_iff. eauto.
Qed.

Lemma bfs_inv_init steps : bfs_inv steps 0 (root_steps steps) ∅ [].
Proof.
  split; [intros x; split; [set_solver|intros (m & [] & _)]|].
  split; [constructor|].
  split; [intros m []|]. split; [intros m []|]. split; [intros m []|].
  split; [lia|]. left. auto.
Qed.

Lemma cur_shape steps lvl cur processed nodes s :
  bfs_inv steps lvl cur processed nodes -> In s cur ->
  In s steps /\
  (lvl = 0 -> dependencies s = [] /\ (processed = ∅)) /\
  (0 < lvl -> (id s ∉ processed) /\ forall d, In d (dependencies s) -> d ∈ processed).
Proof.
  intros (Hset & _ & _ & _ & _ & _ & [(-> & -> & ->)|(Hlvl & ->)]) Hs.
  - unfold root_steps in Hs. apply filter_In in Hs as [Hs Hlen].
    apply Nat.eqb_eq, length_zero_iff_nil in Hlen.
    repeat split; auto; try lia.
    apply set_eq. intros x. rewrite Hset. set_solver.
  - unfold next_level in Hs. apply filter_In in Hs as [Hs Hf].
    apply andb_true_iff in Hf as [Hid Hdeps].
    apply negb_true_iff, bool_decide_eq_false in Hid.
    rewrite forallb_forall in Hdeps.
    repeat split; auto; try lia.
    intros d Hd. specialize (Hdeps d Hd). by apply bool_decide_eq_true in Hdeps.
Qed.

Lemma bfs_inv_step steps lvl grp cur processed nodes p' n' :
  NoDup (map id steps) ->
  bfs_inv steps lvl cur processed nodes ->
  cur <> [] ->
  place_level lvl grp cur processed nodes = (p', n') ->
  bfs_inv steps (S lvl) (next_level steps p') p' n' /\ length nodes < length n'.
Proof.
  intros Hsteps Hinv Hcur Hpl.
  pose proof Hinv as (Hset & Hnd & Hin & Hzero & Hdeps & Hroots & Hshape).
  destruct (place_level_frame _ _ _ _ _ _ _ Hpl) as [Hp' (added & -> & Hadd)].
  destruct (place_level_set _ _ _ _ _ _ _ Hpl Hset Hnd) as (Hset' & Hnd' & Hlen).
  split.
  - split; [done|]. split; [done|]. split; [|split; [|split; [|split]]].
    + intros m Hm. apply in_app_iff in Hm as [Hm|Hm].
      * destruct (Hin m Hm). split; [done|lia].
      * destruct (Hadd m Hm) as (Hc & Hl & _).
        destruct (cur_shape _ _ _ _ _ _ Hinv Hc). split; [done|lia].
    + intros m Hm. apply in_app_iff in Hm as [Hm|Hm]; [by apply Hzero|].
      destruct (Hadd _ Hm) as (Hc & Hlv & _ & Hnot).
      destruct (cur_shape _ _ _ _ _ _ Hinv Hc) as (Hst & H0 & Hpos).
      split.
      * intros Hl. apply H0. lia.
      * intros Hd. destruct lvl as [|lvl']; [done|].
        exfalso. apply Hnot. apply (Hroots ltac:(lia) _ Hst Hd).
    + intros m Hm d Hd. apply in_app_iff in Hm as [Hm|Hm].
      * destruct (Hdeps m Hm d Hd) as (m' & Hm' & Hid & Hlt).
        exists m'. rewrite in_app_iff. auto.
      * destruct (Hadd _ Hm) as (Hc & Hlv & _ & _).
        destruct (cur_shape _ _ _ _ _ _ Hinv Hc) as (_ & H0 & Hpos).
        destruct lvl as [|lvl'].
        -- destruct (H0 eq_refl) as [Hnil _]. rewrite Hnil in Hd. destruct Hd.
        -- destruct (Hpos ltac:(lia)) as [_ Hall].
           destruct (proj1 (Hset d) (Hall d Hd)) as (m' & Hm' & Hid).
           exists m'. rewrite in_app_iff. split; [auto|]. split; [done|].
           destruct (Hin m' Hm'). lia.
    + intros _ s Hs Hnil. apply Hp'.
      destruct Hshape as [(-> & -> & ->)|(Hlvl & ->)].
      * right. exists s. split; [|done].
        unfold root_steps. apply filter_In. split; [done|]. by rewrite Hnil.
      * left. by apply Hroots.
    + right. split; [lia|done].
  - destruct cur as [|s rest]; [done|]. apply Hlen.
    destruct (cur_shape _ _ _ _ _ _ Hinv (or_introl eq_refl)) as (_ & H0 & Hpos).
    destruct lvl as [|lvl'].
    + destruct (H0 eq_refl) as [_ ->]. set_solver.
    + by destruct (Hpos ltac:(lia)).
Qed.


Lemma bfs_S_cons f steps lvl s rest processed nodes :
  bfs (S f) steps lvl (s :: rest) processed nodes =
  let '(p', n') := place_level lvl
                     (if Nat.ltb 1 (length (s :: rest)) then Some lvl else None)
                     (s :: rest) processed nodes in
  bfs f steps (S lvl) (next_level steps p') p' n'.
Proof. reflexivity. Qed.

(** The fuel given by [graphNodes] is never exhausted: the loop ends
    because a round found no ready step. *)
Lemma bfs_inv_final fuel steps lvl cur processed nodes :
  NoDup (map id steps) ->
  bfs_inv steps lvl cur processed nodes ->
  length steps < fuel + length nodes ->
  exists lvl' p', bfs_inv steps lvl' [] p' (bfs fuel steps lvl cur processed nodes).
Proof.
  revert lvl cur processed nodes.
  induction fuel as [|f IH]; intros lvl cur processed nodes Hsteps Hinv Hlen.
  - exfalso. destruct Hinv as (Hset & Hnd & Hin & _).
    assert (Hle : length (map (fun m => id (step m)) nodes) <= length (map id steps)).
    { apply List.NoDup_incl_length; [by apply NoDup_ListNoDup|]. intros x Hx.
      apply in_map_iff in Hx as (m & <- & Hm). apply in_map_iff.
      exists (step m). split; [done|]. by apply Hin. }
    rewrite !length_map in Hle. lia.
  - destruct cur as [|s rest].
    + exists lvl, processed. done.
    + rewrite bfs_S_cons. destruct (place_level _ _ _ _ _) as [p' n'] eqn:Hpl.
      destruct (bfs_inv_step _ _ _ _ _ _ _ _ Hsteps Hinv ltac:(done) Hpl) as [Hinv' Hlt].
      apply (IH _ _ _ _ Hsteps Hinv'). lia.
Qed.

Lemma forallb_false_exists {A} (f : A -> bool) (l : list A) :
  forallb f l = false -> exists x, In x l /\ f x = false.
Proof.
  induction l as [|a l IH]; simpl; [done|].
  destruct (f a) eqn:Ha; simpl.
  - intros Hl. destruct (IH Hl) as (x & Hx & Hf). eauto.
  - intros _. eauto.
Qed.

(** When the loop has stopped, no step is ready: every step left out has a
    dependency that was not placed. *)
Lemma bfs_inv_stuck steps lvl p nodes :
  bfs_inv steps lvl [] p nodes ->
  forall s, In s steps -> id s ∉ p -> exists d, In d (dependencies s) /\ d ∉ p.
Proof.
  intros Hinv s Hs Hns.
  destruct Hinv as (Hset & _ & _ & _ & _ & _ & [(-> & Hroot & ->)|(Hlvl & Hnext)]).
  - destruct (dependencies s) as [|d ds] eqn:Hd.
    + exfalso. assert (Hr : In s (root_steps steps)).
      { unfold root_steps. apply filter_In. rewrite Hd. auto. }
      rewrite <- Hroot in Hr. destruct Hr.
    + exists d. split; [by left|]. rewrite Hset. intros (m & [] & _).
  - destruct (forallb (fun d => bool_decide (d ∈ p)) (dependencies s)) eqn:Hall.
    + exfalso. assert (Hr : In s (next_level steps p)).
      { unfold next_level. apply filter_In. split; [done|].
        rewrite Hall, andb_true_r. apply negb_true_iff, bool_decide_eq_false. done. }
      rewrite <- Hnext in Hr. destruct Hr.
    + destruct (forallb_false_exists _ _ Hall) as (d & Hd & Hf).
      exists d. split; [done|]. by apply bool_decide_eq_false in Hf.
Qed.

(** When the loop has stopped, every step of a [grounded] set is placed. *)
Lemma bfs_inv_grounded steps lvl p nodes G :
  bfs_inv steps lvl [] p nodes -> grounded steps G ->
  forall s, In s steps -> In (id s) G -> id s ∈ p.
Proof.
  intros Hinv [rank Hrank].
  pose proof (bfs_inv_stuck _ _ _ _ Hinv) as Hstuck.
  assert (Hk : forall k s, In s steps -> In (id s) G -> rank (id s) < k -> id s ∈ p).
  { induction k as [|k IHk]; intros s Hs HG Hlt; [lia|].
    destruct (decide (id s ∈ p)) as [Hp|Hns]; [done|].
    destruct (Hstuck s Hs Hns) as (d & Hd & Hnd).
    destruct (Hrank s Hs HG d Hd) as (HdG & (t & Ht & <-) & Hr).
    exfalso. apply Hnd. apply IHk; [done|done|lia]. }
  intros s Hs HG. apply (Hk (S (rank (id s)))); auto.
Qed.

(** When the loop has stopped on an acyclic graph whose dependencies
    resolve, every step has been placed. *)
Lemma bfs_inv_complete steps lvl p nodes :
  deps_resolve steps -> acyclic steps -> bfs_inv steps lvl [] p nodes ->
  forall s, In s steps -> id s ∈ p.
Proof.
  intros Hres [rank Hrank] Hinv s Hs.
  apply (bfs_inv_grounded steps lvl p nodes (map id steps)); [done| |done|].
  - exists rank. intros s' Hs' _ d Hd.
    destruct (Hres s' Hs' d Hd) as (t & Ht & <-).
    split; [apply in_map_iff; eauto|]. split; [eauto|]. by apply Hrank.
  - apply in_map_iff. eauto.
Qed.

(** Steps on a dependency cycle (a [blocked] set) are never placed. *)
Lemma bfs_blocked fuel steps B lvl cur processed nodes :
  blocked steps B ->
  (forall x, x ∈ processed -> ~ In x B) ->
  (forall m, In m nodes -> ~ In (id (step m)) B) ->
  (forall s, In s cur -> In s steps /\
     forall d, In d (dependencies s) -> d ∈ processed) ->
  forall m, In m (bfs fuel steps lvl cur processed nodes) -> ~ In (id (step m)) B.
Proof.
  intros HB. revert lvl cur processed nodes.
  induction fuel as [|f IH]; intros lvl cur processed nodes Hp Hn Hc; [done|].
  destruct cur as [|s rest]; [done|].
  rewrite bfs_S_cons. destruct (place_level _ _ _ _ _) as [p' n'] eqn:Hpl.
  destruct (place_level_frame _ _ _ _ _ _ _ Hpl) as [Hp' (added & -> & Hadd)].
  assert (Hcur : forall t, In t (s :: rest) -> ~ In (id t) B).
  { intros t Ht HtB. destruct (Hc t Ht) as [Hts Hdeps].
    destruct (HB t Hts HtB) as (d & Hd & HdB).
    exact (Hp d (Hdeps d Hd) HdB). }
  apply IH.
  - intros x Hx. apply Hp' in Hx as [Hx|(t & Ht & <-)]; [by apply Hp|by apply Hcur].
  - intros m Hm. apply in_app_iff in Hm as [Hm|Hm]; [by apply Hn|].
    destruct (Hadd m Hm) as (Ht & _). by apply Hcur.
  - intros t Ht. unfold next_level in Ht. apply filter_In in Ht as [Ht Hf].
    apply andb_true_iff in Hf as [_ Hall]. rewrite forallb_forall in Hall.
    split; [done|]. intros d Hd. specialize (Hall d Hd).
    by apply bool_decide_eq_true in Hall.
Qed.


(** *** Claims *)

(** C1 (leveling correctness).  For a task graph whose step ids are
    distinct, whose dependencies all name steps of the graph, and which is
    acyclic, [graphNodes] places every step exactly once; a step is placed
    at level 0 exactly when it has no dependencies; and each dependency of a
    placed step is itself placed at a strictly smaller level. *)
Theorem graphNodes_leveling (steps : list TaskStep) :
  NoDup (map id steps) -> deps_resolve steps -> acyclic steps ->
  (forall s, In s steps -> exists n, In n (graphNodes steps) /\ step n = s) /\
  (forall n1 n2, In n1 (graphNodes steps) -> In n2 (graphNodes steps) ->
     id (step n1) = id (step n2) -> n1 = n2) /\
  (forall n, In n (graphNodes steps) -> In (step n) steps) /\
  (forall n, In n (graphNodes steps) ->
     (level n = 0 <-> dependencies (step n) = [])) /\
  (forall n, In n (graphNodes steps) -> forall d, In d (dependencies (step n)) ->
     exists m, In m (graphNodes steps) /\ id (step m) = d /\ level m < level n).
Proof.
  intros Hnd Hres Hacyc.
  destruct (bfs_inv_final (S (length steps)) steps 0 (root_steps steps) ∅ []
              Hnd (bfs_inv_init steps) ltac:(simpl; lia)) as (lvl & p & Hinv).
  change (bfs (S (length steps)) steps 0 (root_steps steps) ∅ [])
    with (graphNodes steps) in Hinv.
  pose proof (bfs_inv_complete _ _ _ _ Hres Hacyc Hinv) as Hcomp.
  destruct Hinv as (Hset & Hndn & Hin & Hzero & Hdeps & _).
  split; [|split; [|split; [|split]]].
  - intros s Hs. destruct (proj1 (Hset (id s)) (Hcomp s Hs)) as (m & Hm & Hid).
    exists m. split; [done|].
    apply (NoDup_map_in_inj id steps); auto. apply (Hin m Hm).
  - intros n1 n2 H1 H2 Heq. exact (NoDup_map_in_inj _ _ _ _ Hndn H1 H2 Heq).
  - intros n Hn. apply (Hin n Hn).
  - exact Hzero.
  - exact Hdeps.
Qed.

Lemma graphNodes_leveling_witness :
  let g := [mkStep "s1" []; mkStep "s2" ["s1"]; mkStep "s3" ["s1"; "s2"]] in
  (NoDup (map id g) /\ deps_resolve g /\ acyclic g) /\
  (forall n, In n (graphNodes g) -> (level n = 0 <-> dependencies (step n) = [])).
Proof.
  intros g.
  assert (Hnd : NoDup (map id g)) by (vm_compute; repeat constructor; set_solver).
  assert (Hres : deps_resolve g).
  { intros s Hs d Hd. subst g. simpl in Hs.
    destruct Hs as [<-|[<-|[<-|[]]]]; simpl in Hd; intuition subst.
    - exists (mkStep "s1" []). simpl; auto.
    - exists (mkStep "s1" []). simpl; auto.
    - exists (mkStep "s2" ["s1"]). simpl; auto. }
  assert (Hacyc : acyclic g).
  { exists (fun x => if String.eqb x "s1" then 0
                     else if String.eqb x "s2" then 1 else 2).
    intros s Hs d Hd. subst g. simpl in Hs.
    destruct Hs as [<-|[<-|[<-|[]]]]; simpl in Hd; intuition subst; simpl; lia. }
  split; [auto|].
  exact (proj1 (proj2 (proj2 (proj2 (graphNodes_leveling g Hnd Hres Hacyc))))).
Defined.

(** C2, counterexample.  On a graph with the cycle A -> B -> A next to an
    independent step C, the leveling raises no error: it returns C at
    level 0 and silently leaves A and B out. *)
Lemma graphNodes_cycle_not_rejected :
  map (fun n => (id (step n), level n))
      (graphNodes [mkStep "C" []; mkStep "A" ["B"]; mkStep "B" ["A"]])
  = [("C", 0)].
Proof. vm_compute. reflexivity. Qed.

(** C2, as the code behaves.  For a task graph with distinct step ids,
    [graphNodes] always returns a list of placed nodes (there is no error
    outcome), and:
    - no step whose id lies in a [blocked] set (a dependency cycle,
      together with the steps depending on it) is ever placed;
    - the loop stops only when no step is ready: every step left out has a
      dependency that was not placed;
    - every placed node is a step of the graph, and each of its
      dependencies was placed at a strictly smaller level;
    - every step of a [grounded] set (independent steps) is placed. *)
Theorem graphNodes_cycle_dropped (steps : list TaskStep) :
  NoDup (map id steps) ->
  (forall B, blocked steps B ->
     forall n, In n (graphNodes steps) -> ~ In (id (step n)) B) /\
  (forall s, In s steps ->
     (forall n, In n (graphNodes steps) -> id (step n) <> id s) ->
     exists d, In d (dependencies s) /\
       forall n, In n (graphNodes steps) -> id (step n) <> d) /\
  (forall n, In n (graphNodes steps) -> In (step n) steps /\
     forall d, In d (dependencies (step n)) ->
       exists m, In m (graphNodes steps) /\ id (step m) = d /\ level m < level n) /\
  (forall G, grounded steps G ->
     forall s, In s steps -> In (id s) G ->
       exists n, In n (graphNodes steps) /\ step n = s).
Proof.
  intros Hnd.
  destruct (bfs_inv_final (S (length steps)) steps 0 (root_steps steps) ∅ []
              Hnd (bfs_inv_init steps) ltac:(simpl; lia)) as (lvl & p & Hinv).
  change (bfs (S (length steps)) steps 0 (root_steps steps) ∅ [])
    with (graphNodes steps) in Hinv.
  pose proof (bfs_inv_stuck _ _ _ _ Hinv) as Hstuck.
  pose proof (fun G => bfs_inv_grounded _ _ _ _ G Hinv) as Hgr.
  destruct Hinv as (Hset & Hndn & Hin & Hzero & Hdeps & _).
  split; [|split; [|split]].
  - intros B HB. unfold graphNodes. apply bfs_blocked; [done| | |].
    + intros x Hx. set_solver.
    + intros m [].
    + intros s Hs. unfold root_steps in Hs. apply filter_In in Hs as [Hs Hlen].
      apply Nat.eqb_eq, length_zero_iff_nil in Hlen.
      split; [done|]. rewrite Hlen. intros d [].
  - intros s Hs Hout.
    assert (Hns : id s ∉ p).
    { rewrite Hset. intros (m & Hm & Hid). exact (Hout m Hm Hid). }
    destruct (Hstuck s Hs Hns) as (d & Hd & Hdp).
    exists d. split; [done|]. intros n Hn Hid. apply Hdp, Hset. eauto.
  - intros n Hn. split; [apply (Hin n Hn)|]. by apply Hdeps.
  - intros G HG s Hs HsG.
    destruct (proj1 (Hset (id s)) (Hgr G HG s Hs HsG)) as (m & Hm & Hid).
    exists m. split; [done|].
    apply (NoDup_map_in_inj id steps); auto. apply (Hin m Hm).
Qed.

(** On the graph of the counterexample, the independent step C is placed. *)
Lemma graphNodes_cycle_dropped_witness :
  let g := [mkStep "C" []; mkStep "A" ["B"]; mkStep "B" ["A"]] in
  NoDup (map id g) /\
  exists n, In n (graphNodes g) /\ step n = mkStep "C" [].
Proof.
  intros g.
  assert (Hnd : NoDup (map id g)) by (vm_compute; repeat constructor; set_solver).
  assert (HG : grounded g ["C"]).
  { exists (fun _ => 0). intros s Hs HsG d Hd. subst g. simpl in Hs.
    destruct Hs as [<-|[<-|[<-|[]]]]; simpl in *.
    - destruct Hd.
    - exfalso. intuition discriminate.
    - exfalso. intuition discriminate. }
  split; [done|].
  exact (proj2 (proj2 (proj2 (graphNodes_cycle_dropped g Hnd))) ["C"] HG
           (mkStep "C" []) (or_introl eq_refl) (or_introl eq_refl)).
Defined.

End TaskGraph.

(* ================================================================= *)
(** ** The step interpreter: [executeStep] *)

Module ExecuteStep.

Local Open Scope Z_scope.

Section Retry.

(** [D]: the data an action resolves with. *)
Context {D : Type}.

(** What [executeStep] resolves with: [{success, data?, error?}]. *)
Record StepResult := mkResult {
  success : bool;
  data : option D;
  error : option string
}.

(** Observable events of the retry loop: an invocation of [attemptAction]
    for attempt [a]; a [sendStepResult] report (with [meta.attempt = a]);
    a backoff [setTimeout] of [ms] milliseconds. *)
Inductive Event :=
| EvAttempt (a : Z)
| EvReport (a : Z) (ok : bool) (payload : option D) (err : option string)
| EvSleep (ms : Z).

(** [step.payload?.retries || 1]: an absent or zero count becomes 1. *)
Definition retries_of (r : option Z) : Z :=
  match r with
  | None => 1
  | Some z => if Z.eqb z 0 then 1 else z
  end.

(** [for (let attempt = 1; attempt <= retries; attempt++) { ... }]:
    [act a] is what [attemptAction(step.action, step.payload)] does at
    attempt [a]: [inr res] when it resolves with [res], [inl msg] when it
    throws an error with message [msg]. *)
Fixpoint retry_loop (fuel : nat) (attempt retries : Z) (act : Z -> string + D)
    : list Event * StepResult :=
  match fuel with
  | O => ([], mkResult false None (Some "Unknown failure"))
  | S fuel' =>
      if Z.leb attempt retries then
        match act attempt with
        | inr res =>
            ([EvAttempt attempt; EvReport attempt true (Some res) None],
             mkResult true (Some res) None)
        | inl msg =>
            let tr := [EvAttempt attempt; EvReport attempt false None (Some msg)] in
            if Z.eqb attempt retries then (tr, mkResult false None (Some msg))
            else
              let '(tr', r) := retry_loop fuel' (attempt + 1) retries act in
              (tr ++ EvSleep (300 * attempt) :: tr', r)
        end
      else ([], mkResult false None (Some "Unknown failure"))
  end.

(** The retry part of [executeStep]; the fuel [retries] is exactly the
    number of iterations of the [for] loop. *)
Definition executeStep_retry (r : option Z) (act : Z -> string + D)
    : list Event * StepResult :=
  let retries := retries_of r in
  retry_loop (Z.to_nat retries) 1 retries act.

Definition attempts_of (tr : list Event) : list Z :=
  flat_map (fun e => match e with EvAttempt a => [a] | _ => [] end) tr.

Definition sleeps_of (tr : list Event) : list Z :=
  flat_map (fun e => match e with EvSleep ms => [ms] | _ => [] end) tr.

Fixpoint zseq (a : Z) (k : nat) : list Z :=
  match k with
  | O => []
  | S k' => a :: zseq (a + 1) k'
  end.

(** The events of a failing attempt [a] out of [retries]. *)
Definition fail_block (retries : Z) (msg : Z -> string) (a : Z) : list Event :=
  [EvAttempt a; EvReport a false None (Some (msg a))] ++
  (if Z.eqb a retries then [] else [EvSleep (300 * a)]).

Lemma retry_loop_all_fail (msg : Z -> string) (k : nat) :
  forall fuel (a retries : Z),
  (1 <= k)%nat -> a + Z.of_nat k - 1 = retries -> (k <= fuel)%nat ->
  retry_loop fuel a retries (fun j => inl (msg j)) =
    (flat_map (fail_block retries msg) (zseq a k),
     mkResult false None (Some (msg retries))).
Proof.
  induction k as [|k IH]; intros fuel a retries Hk Hr Hf; [lia|].
  destruct fuel as [|f]; [lia|]. simpl.
  rewrite (proj2 (Z.leb_le a retries)) by lia.
  destruct k as [|k'].
  - assert (a = retries) as <- by lia.
    unfold fail_block. rewrite Z.eqb_refl. simpl. reflexivity.
  - rewrite (proj2 (Z.eqb_neq a retries)) by lia.
    rewrite (IH f (a + 1) retries) by lia.
    reflexivity.
Qed.

Lemma attempts_of_fail (retries : Z) (msg : Z -> string) (k : nat) :
  forall (a : Z), attempts_of (flat_map (fail_block retries msg) (zseq a k)) = zseq a k.
Proof.
  induction k as [|k IH]; intros a; [done|].
  simpl. unfold attempts_of in *. rewrite flat_map_app, IH.
  unfold fail_block. destruct (Z.eqb a retries); reflexivity.
Qed.

Lemma sleeps_of_fail (retries : Z) (msg : Z -> string) (k : nat) :
  forall (a : Z), (1 <= k)%nat -> a + Z.of_nat k - 1 = retries ->
  sleeps_of (flat_map (fail_block retries msg) (zseq a k)) =
    map (fun j => 300 * j) (zseq a (k - 1)%nat).
Proof.
  induction k as [|k IH]; intros a Hk Hr; [lia|].
  change (flat_map (fail_block retries msg) (zseq a (S k))) with
    (fail_block retries msg a ++ flat_map (fail_block retries msg) (zseq (a + 1) k)).
  unfold sleeps_of in *. rewrite flat_map_app.
  destruct k as [|k'].
  - assert (a = retries) as <- by lia. unfold fail_block. rewrite Z.eqb_refl.
    reflexivity.
  - rewrite IH by lia. unfold fail_block.
    rewrite (proj2 (Z.eqb_neq a retries)) by lia.
    rewrite !Nat.sub_succ, !Nat.sub_0_r. reflexivity.
Qed.

Lemma backoff_sorted (k : nat) :
  forall (a : Z), Sorted Z.le (map (fun j => 300 * j) (zseq a k)).
Proof.
  induction k as [|k IH]; intros a; simpl; constructor; [apply IH|].
  destruct k; simpl; constructor. lia.
Qed.

Lemma retry_loop_success (act : Z -> string + D) (res : D) (k : nat) :
  forall fuel (a retries : Z),
  (forall j, a <= j < a + Z.of_nat k -> exists m, act j = inl m) ->
  act (a + Z.of_nat k) = inr res ->
  a + Z.of_nat k <= retries -> (k < fuel)%nat ->
  exists pre,
    retry_loop fuel a retries act =
      (pre ++ [EvAttempt (a + Z.of_nat k);
               EvReport (a + Z.of_nat k) true (Some res) None],
       mkResult true (Some res) None) /\
    attempts_of pre = zseq a k.
Proof.
  induction k as [|k IH]; intros fuel a retries Hfail Hok Hr Hf;
    (destruct fuel as [|f]; [lia|]); simpl.
  - rewrite Z.add_0_r in Hok, Hr |- *.
    rewrite (proj2 (Z.leb_le a retries)) by lia. rewrite Hok.
    exists []. split; reflexivity.
  - rewrite (proj2 (Z.leb_le a retries)) by lia.
    destruct (Hfail a ltac:(lia)) as [m Hm]. rewrite Hm.
    rewrite (proj2 (Z.eqb_neq a retries)) by lia.
    destruct (IH f (a + 1) retries) as (pre & Heq & Hatt).
    + intros j Hj. apply Hfail. lia.
    + by replace (a + 1 + Z.of_nat k) with (a + Z.of_nat (S k)) by lia.
    + lia.
    + lia.
    + rewrite Heq. exists ([EvAttempt a; EvReport a false None (Some m);
                           EvSleep (300 * a)] ++ pre).
      replace (a + 1 + Z.of_nat k) with (a + Z.of_nat (S k)) by lia.
      split; [reflexivity|].
      unfold attempts_of in *. rewrite flat_map_app, Hatt. reflexivity.
Qed.

Lemma retries_of_cond (r : option Z) (n : nat) :
  (r = Some (Z.of_nat n) /\ (1 <= n)%nat) \/ (r = None /\ n = 1%nat) ->
  retries_of r = Z.of_nat n /\ (1 <= n)%nat.
Proof.
  intros [[-> Hn]|[-> ->]]; simpl; [|done].
  rewrite (proj2 (Z.eqb_neq _ _)) by lia. done.
Qed.


(** C3 (retry/backoff).  Let [payload.retries] be [n >= 1] (or absent, then
    [n = 1]).  When every attempt throws, [executeStep] makes exactly the
    attempts [1..n] one after the other; each attempt is reported before
    the backoff and the next attempt; the backoff after attempt [a] is
    [300 * a] ms, so the delays are non-decreasing; and the result is a
    failure carrying the message of attempt [n].  When attempts [1..k-1]
    throw and attempt [k <= n] resolves, the result is a success and the
    trace ends with that attempt and its report: no attempt follows. *)
Theorem executeStep_retry_spec (r : option Z) (n : nat) :
  (r = Some (Z.of_nat n) /\ (1 <= n)%nat) \/ (r = None /\ n = 1%nat) ->
  (forall msg : Z -> string,
     executeStep_retry r (fun a => inl (msg a)) =
       (flat_map (fail_block (Z.of_nat n) msg) (zseq 1 n),
        mkResult false None (Some (msg (Z.of_nat n)))) /\
     attempts_of (fst (executeStep_retry r (fun a => inl (msg a)))) = zseq 1 n /\
     sleeps_of (fst (executeStep_retry r (fun a => inl (msg a)))) =
       map (fun a => 300 * a) (zseq 1 (n - 1)%nat) /\
     Sorted Z.le (sleeps_of (fst (executeStep_retry r (fun a => inl (msg a)))))) /\
  (forall (k : nat) (act : Z -> string + D) (res : D),
     (1 <= k <= n)%nat ->
     (forall j, 1 <= j < Z.of_nat k -> exists m, act j = inl m) ->
     act (Z.of_nat k) = inr res ->
     snd (executeStep_retry r act) = mkResult true (Some res) None /\
     exists pre,
       fst (executeStep_retry r act) =
         pre ++ [EvAttempt (Z.of_nat k); EvReport (Z.of_nat k) true (Some res) None] /\
       attempts_of pre = zseq 1 (k - 1)%nat).
Proof.
  intros Hr. destruct (retries_of_cond r n Hr) as [Hret Hn].
  unfold executeStep_retry. rewrite Hret, Nat2Z.id. split.
  - intros msg.
    assert (Heq : retry_loop n 1 (Z.of_nat n) (fun a => inl (msg a)) =
              (flat_map (fail_block (Z.of_nat n) msg) (zseq 1 n),
               mkResult false None (Some (msg (Z.of_nat n))))).
    { apply retry_loop_all_fail; lia. }
    rewrite Heq. simpl fst. split; [done|]. split; [apply attempts_of_fail|].
    rewrite sleeps_of_fail by lia. split; [done|]. apply backoff_sorted.
  - intros k act res Hk Hfail Hok.
    destruct (retry_loop_success act res (k - 1) n 1 (Z.of_nat n)) as (pre & Heq & Hatt).
    + intros j Hj. apply Hfail. lia.
    + by replace (1 + Z.of_nat (k - 1)) with (Z.of_nat k) by lia.
    + lia.
    + lia.
    + rewrite Heq. replace (1 + Z.of_nat (k - 1)) with (Z.of_nat k) by lia.
      split; [done|]. exists pre. split; [done|]. done.
Qed.

End Retry.

(** Three always-failing attempts: the backoffs are 300 and 600 ms and the
    result carries the third message. *)
Lemma executeStep_retry_spec_witness :
  ((Some 3 = Some (Z.of_nat 3) /\ (1 <= 3)%nat) \/ (Some 3 = None /\ 3%nat = 1%nat)) /\
  sleeps_of (fst (@executeStep_retry unit (Some 3) (fun a => inl "boom"))) = [300; 600].
Proof.
  assert (Hc : (Some 3 = Some (Z.of_nat 3) /\ (1 <= 3)%nat) \/
               (Some 3 = None /\ 3%nat = 1%nat)) by (left; split; [reflexivity|lia]).
  split; [exact Hc|].
  destruct (proj1 (@executeStep_retry_spec unit (Some 3) 3 Hc) (fun _ => "boom"))
    as (_ & _ & Hs & _).
  rewrite Hs. reflexivity.
Defined.

(** *** Actions of [attemptAction] *)


Definition is_space (c : Ascii.ascii) : bool :=
  match Ascii.nat_of_ascii c with
  | 9 | 10 | 11 | 12 | 13 | 32 => true
  | _ => false
  end%nat.

(** [s.replace(/^\s*/, '')] *)
Fixpoint drop_spaces (s : string) : string :=
  match s with
  | String c rest => if is_space c then drop_spaces rest else s
  | EmptyString => EmptyString
  end.

(** [a || b] on strings, where [None] is [undefined] and [""] is falsy. *)
Definition js_or (a : option string) (b : string) : string :=
  match a with
  | Some x => if String.eqb x "" then b else x
  | None => b
  end.



(** A substep's [payload.selector] after the JSON round trip: a string, or
    another JSON value (only its truthiness matters before [startsWith]). *)
Inductive SelVal :=
| SelStr (s : string)
| SelOther (truthy : bool).

(** A substep of a [loop]: its [action] and its [payload.selector]
    ([None] when absent). *)
Record SubStep := mkSub { sub_action : string; sub_selector : option SelVal }.

(** The [$this] rewrite applied to the deep copy of a substep:
    [if (cloned.payload?.selector && cloned.payload.selector.startsWith('$this'))].
    A truthy selector that is not a string has no [startsWith]: the call
    throws a [TypeError], reported as [inl] with its message. *)
Definition scope_sub (sel : string) (sub : SubStep) : string + SubStep :=
  match sub_selector sub with
  | Some (SelStr x) =>
      if negb (String.eqb x "") && String.prefix "$this" x
      then inr (mkSub (sub_action sub)
             (Some (SelStr (sel ++ " :scope " ++
                    drop_spaces (String.substring 5 (String.length x) x))%string)))
      else inr sub
  | Some (SelOther true) => inl "cloned.payload.selector.startsWith is not a function"
  | Some (SelOther false) | None => inr sub
  end.

Section Loop.

(** [run i sub]: what [await attemptAction(cloned.action, cloned.payload)]
    does for item [i]: [None] when it resolves, [Some msg] when it throws. *)
Variable run : nat -> SubStep -> option string.
(** [scroll i] and [click i]: whether [el.scrollIntoView(...)] and
    [el.click()] throw on item [i] ([Some e.message]) or return ([None]);
    e.g. an SVG or MathML element has no [click] method. *)
Variable scroll : nat -> option string.
Variable click : nat -> option string.
(** [payload?.clickOnItem !== false] *)
Variable click_on_item : bool.
Variable sel : string.





End Loop.


Section Search.

Variable encodeURIComponent : string -> string.


End Search.











Example scope_sub_this :
  scope_sub ".item" (mkSub "extract" (Some (SelStr "$this .title"))) =
  inr (mkSub "extract" (Some (SelStr ".item :scope .title"))).
Proof. reflexivity. Qed.

End ExecuteStep.

(* ================================================================= *)
(** ** The persistent task monitor (background service worker) *)

Module Monitor.

Local Open Scope Z_scope.

Record TaskPollingState := mkState {
  taskId : string;
  status : string;
  progress : Z;
  currentStep : string;
  message : string;
  thoughtProcess : list string;
  lastUpdated : Z
}.

(** The JSON of [GET /agent/tasks/{id}]; absent fields are [None]. *)
Record StatusReply := mkReply {
  r_status : string;
  r_progress_percent : option Z;
  r_current_step : option string;
  r_message : option string;
  r_error_message : option string
}.

(** [a || b] on strings ([undefined] and [""] are falsy). *)
Definition js_or (a : option string) (b : string) : string :=
  match a with
  | Some x => if String.eqb x "" then b else x
  | None => b
  end.

(** [a || b] on numbers ([undefined] and [0] are falsy). *)
Definition js_or_num (a : option Z) (b : Z) : Z :=
  match a with
  | Some x => if Z.eqb x 0 then b else x
  | None => b
  end.

Definition truthy (a : option string) : bool :=
  match a with
  | Some x => negb (String.eqb x "")
  | None => false
  end.

(** [`${x}`] *)
Definition render (a : option string) : string :=
  match a with
  | Some x => x
  | None => "undefined"
  end.

(** [arr.slice(-5)] *)
Definition slice_last5 (l : list string) : list string :=
  drop (length l - 5) l.

Definition with_status (s : TaskPollingState) (st msg : string) : TaskPollingState :=
  mkState (taskId s) st (progress s) (currentStep s) msg (thoughtProcess s)
          (lastUpdated s).

Definition with_taskId (s : TaskPollingState) (t : string) : TaskPollingState :=
  mkState t (status s) (progress s) (currentStep s) (message s)
          (thoughtProcess s) (lastUpdated s).

Inductive Badge := BadgeDone | BadgeError | BadgeProgress (p : Z).

(** Effects of one poll tick, in program order. *)
Inductive Effect :=
| Stop                              (** [stopPollingTask(taskId)] *)
| Notify (title msg : string)       (** [chrome.notifications.create] *)
| Save (s : TaskPollingState)       (** [chrome.storage.local.set({activeTask})] *)
| SetBadge (b : Badge).

Definition badge_of (u : TaskPollingState) : Badge :=
  if String.eqb (status u) "complete" then BadgeDone
  else if String.eqb (status u) "error" then BadgeError
  else BadgeProgress (progress u).

(** [result.activeTask || initialState] *)
Definition current_state (stored : option TaskPollingState)
    (initialState : TaskPollingState) : TaskPollingState :=
  match stored with Some s => s | None => initialState end.

(** [(state.thoughtProcess || [])] with [state = result.activeTask || {}] *)
Definition stored_tp (stored : option TaskPollingState) : list string :=
  match stored with Some s => thoughtProcess s | None => [] end.

Definition is_done (st : string) : bool :=
  String.eqb st "completed" || String.eqb st "success".

Definition is_failed (st : string) : bool :=
  String.eqb st "failed" || String.eqb st "error".

Definition is_waiting (st : string) : bool := String.eqb st "waiting_intervention".

(** The [setInterval] callback of [startPollingTask(taskId, initialState)],
    from the moment its [fetch] has settled: [resp = None] when the response
    is not ok or the fetch threw (both only log); [stored] is the
    [activeTask] entry read from storage; [now] is [Date.now()]. *)
Definition poll_tick (tid : string) (initialState : TaskPollingState) (now : Z)
    (resp : option StatusReply) (stored : option TaskPollingState) : list Effect :=
  match resp with
  | None => []
  | Some data =>
      let cur := current_state stored initialState in
      let u := mkState tid (r_status data)
                 (js_or_num (r_progress_percent data) (progress cur))
                 (js_or (r_current_step data) (currentStep cur))
                 (js_or (r_message data) (message cur))
                 (if truthy (r_current_step data)
                  then slice_last5 (thoughtProcess cur) ++
                         ["🔄 " ++ render (r_current_step data)]%string
                  else thoughtProcess cur)
                 now in
      if is_done (r_status data)
      then
        let u' := mkState tid "complete" 100 (currentStep u)
                    (js_or (r_message data) "Task completed successfully!")
                    (slice_last5 (thoughtProcess u) ++ ["✅ Task completed!"])
                    (lastUpdated u) in
        [Stop; Notify "JobHunter Task Complete" (message u'); Save u'; SetBadge (badge_of u')]
      else if is_failed (r_status data)
      then
        let u' := mkState tid "error" (progress u) (currentStep u)
                    (js_or (r_error_message data) "Task failed")
                    (slice_last5 (thoughtProcess u) ++
                       ["❌ " ++ render (r_error_message data)]%string)
                    (lastUpdated u) in
        [Stop; Save u'; SetBadge (badge_of u')]
      else if is_waiting (r_status data)
      then
        let u' := with_status u "waiting" "Waiting for your input..." in
        [Save u'; SetBadge (badge_of u')]
      else [Save u; SetBadge (badge_of u)]
  end.

(** The [thoughtProcess] written by the [stepResult] handler. *)
Definition report_thoughts (stored : option TaskPollingState)
    (stepName : option string) (ok : bool) : list string :=
  slice_last5 (stored_tp stored) ++
    ["🔄 " ++ render stepName ++ " - " ++ (if ok then "ok" else "fail")]%string.

(** The service worker's state: [chrome.storage.local]; [activePolling],
    each live interval with the [initialState] its callback closed over;
    the ticks whose [fetch] is in flight; the notifications shown. *)
Record Bg := mkBg {
  storage : gmap string TaskPollingState;
  activePolling : gmap string TaskPollingState;
  inflight : list (string * TaskPollingState);
  notifications : list (string * string)
}.

Inductive Event :=
| EvStart (t : string) (init : TaskPollingState)  (** [startTaskPolling] *)
| EvStopMsg (t : string)                          (** [stopTaskPolling] *)
| EvFire (t : string)          (** the interval of [t] fires; its fetch starts *)
| EvResolve (k : nat) (now : Z) (resp : option StatusReply).
                               (** the fetch of the [k]-th pending tick settles *)

(** [startPollingTask(taskId, initialState)]: store the initial state under
    [activeTask], replace any interval of [taskId] by a new one. *)
Definition start_polling (t : string) (init : TaskPollingState) (s : Bg) : Bg :=
  mkBg (<["activeTask" := with_taskId init t]> (storage s))
       (<[t := init]> (activePolling s)) (inflight s) (notifications s).

(** [stopPollingTask(taskId)] *)
Definition stop_polling (t : string) (s : Bg) : Bg :=
  mkBg (storage s) (delete t (activePolling s)) (inflight s) (notifications s).

Definition apply_effect (t : string) (s : Bg) (e : Effect) : Bg :=
  match e with
  | Stop => stop_polling t s
  | Notify title msg => mkBg (storage s) (activePolling s) (inflight s)
                             (notifications s ++ [(title, msg)])
  | Save u => mkBg (<["activeTask" := u]> (storage s)) (activePolling s)
                   (inflight s) (notifications s)
  | SetBadge _ => s
  end.

Definition handle (s : Bg) (ev : Event) : Bg :=
  match ev with
  | EvStart t init => start_polling t init s
  | EvStopMsg t => stop_polling t s
  | EvFire t =>
      match activePolling s !! t with
      | Some init => mkBg (storage s) (activePolling s)
                          (inflight s ++ [(t, init)]) (notifications s)
      | None => s
      end
  | EvResolve k now resp =>
      match inflight s !! k with
      | Some (t, init) =>
          let s' := mkBg (storage s) (activePolling s)
                         (delete k (inflight s)) (notifications s) in
          foldl (apply_effect t) s'
                (poll_tick t init now resp (storage s !! "activeTask"))
      | None => s
      end
  end.

Definition run (s : Bg) (evs : list Event) : Bg := foldl handle s evs.

(** [getTaskState]: the handler reads the [activeTask] entry. *)
Definition getTaskState (requested : string) (s : Bg) : option TaskPollingState :=
  storage s !! "activeTask".

(** The worker when it (re)starts: only storage survives. *)
Definition boot (stored : gmap string TaskPollingState) : Bg := mkBg stored ∅ [] [].

Definition terminal (st : string) : bool :=
  String.eqb st "complete" || String.eqb st "error".

(** The startup cleanup of the persisted [activeTask]. *)
Definition startup (now : Z) (s : Bg) : Bg :=
  match storage s !! "activeTask" with
  | Some task =>
      if Z.ltb (60 * 60 * 1000) (now - lastUpdated task) then
        if negb (terminal (status task))
        then mkBg (<["activeTask" := with_status task "error" "Task timed out"]> (storage s))
                  (activePolling s) (inflight s) (notifications s)
        else s
      else if negb (terminal (status task))
      then start_polling (taskId task) task s
      else s
  | None => s
  end.

(** A backend status on which neither poller stops. *)
Definition non_terminal_status (st : string) : bool :=
  negb (is_done st || is_failed st || is_waiting st).

(** [n] ticks of the interval of [t], each settling before the next fires,
    all answered by [data]. *)
Fixpoint rounds (t : string) (now : Z) (data : StatusReply) (n : nat) : list Event :=
  match n with
  | O => []
  | S n => EvFire t :: EvResolve 0 now (Some data) :: rounds t now data n
  end.

(** A settled fetch on which the worker's tick does not stop polling: a
    failed fetch, or a reply other than completed/success/failed/error. *)
Definition worker_continues (resp : option StatusReply) : bool :=
  match resp with
  | None => true
  | Some data => negb (is_done (r_status data) || is_failed (r_status data))
  end.

(** The status such a tick saves for the backend's status [st]. *)
Definition saved_status (st : string) : string :=
  if is_waiting st then "waiting" else st.

(** An event of the ticks of [t]: its interval fires, or a pending tick's
    fetch settles without a completed/success/failed/error reply. *)
Definition tick_of (t : string) (ev : Event) : Prop :=
  match ev with
  | EvFire t' => t' = t
  | EvResolve _ _ resp => worker_continues resp = true
  | _ => False
  end.

(** [nw] is [old] with its most recent entries kept, in order, and at most
    two entries appended, cut to six entries. *)
Definition bounded_append (old nw : list string) : Prop :=
  exists kept new, nw = kept ++ new /\ kept `suffix_of` old /\
    (length new <= 2)%nat /\ length nw = Nat.min 6 (length old + length new).

(** The popup's task state (the fields [pollTaskStatus] touches). *)
Record PopupState := mkPopup {
  p_status : string;
  p_progress : Z;
  p_currentStep : string;
  p_message : string;
  p_thoughtProcess : list string
}.

Definition popup_timeout (st : PopupState) : PopupState :=
  mkPopup "error" (p_progress st) (p_currentStep st) "Task timed out"
          (p_thoughtProcess st).

(** The [setTaskState] updates of one successful fetch in [poll]; the
    boolean says whether [poll] schedules itself again. *)
Definition popup_update (data : StatusReply) (st : PopupState) : PopupState * bool :=
  let st1 := mkPopup (p_status st)
               (js_or_num (r_progress_percent data) (p_progress st))
               (js_or (r_current_step data) (p_currentStep st))
               (p_message st)
               (if truthy (r_current_step data)
                then slice_last5 (p_thoughtProcess st) ++
                       ["🔄 " ++ render (r_current_step data)]%string
                else p_thoughtProcess st) in
  if is_done (r_status data) then
    (mkPopup "complete" 100 (p_currentStep st1)
       (js_or (r_message data) "Task completed successfully!")
       (slice_last5 (p_thoughtProcess st1) ++ ["✅ Task completed!"]), false)
  else if is_failed (r_status data) then
    (mkPopup "error" (p_progress st1) (p_currentStep st1)
       (js_or (r_error_message data) "Task failed")
       (slice_last5 (p_thoughtProcess st1) ++
          ["❌ " ++ render (r_error_message data)]%string), false)
  else if is_waiting (r_status data) then
    (mkPopup "waiting" (p_progress st1) (p_currentStep st1)
       "Waiting for your input..."
       (slice_last5 (p_thoughtProcess st1) ++ ["⏸️ Human input required"]), false)
  else (st1, true).

(** [poll] of the popup's [pollTaskStatus] with [maxAttempts = 60]:
    [replies attempts] is the outcome of the fetch made while the counter
    is [attempts] ([None] when it fails); the result is the final state and
    the number of fetches made. *)
Fixpoint popup_poll (fuel : nat) (replies : nat -> option StatusReply)
    (attempts : nat) (st : PopupState) : PopupState * nat :=
  match fuel with
  | O => (st, 0%nat)
  | S f =>
      if Nat.leb 60 attempts then (popup_timeout st, 0%nat)
      else match replies attempts with
           | None => let (st', n) := popup_poll f replies (S attempts) st in (st', S n)
           | Some data =>
               let (st1, more) := popup_update data st in
               if more
               then let (st', n) := popup_poll f replies (S attempts) st1 in (st', S n)
               else (st1, 1%nat)
           end
  end.

Definition pollTaskStatus (replies : nat -> option StatusReply) (st : PopupState)
    : PopupState * nat :=
  popup_poll 61 replies 0 st.

Definition reply_continues (r : option StatusReply) : bool :=
  match r with
  | None => true
  | Some data => non_terminal_status (r_status data)
  end.

Lemma slice_last5_spec (l : list string) :
  slice_last5 l `suffix_of` l /\ length (slice_last5 l) = Nat.min 5 (length l).
Proof.
  unfold slice_last5. split.
  - exists (take (length l - 5) l). symmetry. apply take_drop.
  - rewrite length_drop. lia.
Qed.

Lemma slice_last5_twice (l : list string) (a : string) :
  slice_last5 (slice_last5 l ++ [a]) = drop (length l - 4) l ++ [a].
Proof.
  destruct (slice_last5_spec l) as [_ Hlen].
  unfold slice_last5 at 1. rewrite length_app, Hlen.
  rewrite drop_app_le by (rewrite Hlen; simpl; lia). unfold slice_last5.
  rewrite drop_drop. f_equal. f_equal. cbn [length]. lia.
Qed.

Lemma bounded_append_refl (old : list string) :
  (length old <= 6)%nat -> bounded_append old old.
Proof.
  intros H. exists old, []. rewrite app_nil_r. split; [done|].
  split; [done|]. cbn [length]. split; lia.
Qed.

Lemma bounded_append_one (old : list string) (a : string) :
  (length old <= 6)%nat -> bounded_append old (slice_last5 old ++ [a]).
Proof.
  intros H. destruct (slice_last5_spec old) as [Hsuf Hlen].
  exists (slice_last5 old), [a]. split; [done|]. split; [done|].
  rewrite length_app, Hlen. cbn [length]. split; lia.
Qed.

Lemma bounded_append_two (old : list string) (a b : string) :
  (length old <= 6)%nat ->
  bounded_append old (slice_last5 (slice_last5 old ++ [a]) ++ [b]).
Proof.
  intros H. rewrite slice_last5_twice.
  exists (drop (length old - 4) old), [a; b].
  rewrite <- app_assoc. split; [done|]. split.
  - exists (take (length old - 4) old). symmetry. apply take_drop.
  - rewrite length_app, length_drop. cbn [length app]. split; lia.
Qed.

(** C9 (counterexample): a log of five entries and a tick that reports a
    current step give a saved log of six entries. *)
Lemma thoughts_exceed_five :
  let st5 := mkState "t" "executing" 50 "" "" ["1"; "2"; "3"; "4"; "5"] 0 in
  exists u, In (Save u) (poll_tick "t" st5 1
                           (Some (mkReply "executing" None (Some "x") None None))
                           (Some st5)) /\
    length (thoughtProcess st5) = 5%nat /\ length (thoughtProcess u) = 6%nat.
Proof.
  intros st5. cbn. eexists. split; [left; reflexivity | split; reflexivity].
Qed.

(** C9 (amended): from a log of at most six entries, every state a poll tick
    saves (terminal ticks included) and every log the [stepResult] handler
    writes keeps the most recent old entries, in order, appends at most two,
    and holds at most six entries. *)
Theorem thoughts_bounded_six (stored : option TaskPollingState)
    (init : TaskPollingState) :
  (length (thoughtProcess (current_state stored init)) <= 6)%nat ->
  (length (stored_tp stored) <= 6)%nat ->
  (forall t now data u,
     In (Save u) (poll_tick t init now (Some data) stored) ->
     bounded_append (thoughtProcess (current_state stored init)) (thoughtProcess u)) /\
  (forall stepName ok,
     bounded_append (stored_tp stored) (report_thoughts stored stepName ok)).
Proof.
  intros H1 H2. split.
  - intros t now data u Hin. unfold poll_tick in Hin.
    destruct (truthy (r_current_step data)), (is_done (r_status data)),
      (is_failed (r_status data)), (is_waiting (r_status data));
      simpl in Hin; repeat destruct Hin as [Hin|Hin]; try discriminate;
      try contradiction; injection Hin as <-; simpl;
      auto using bounded_append_refl, bounded_append_one, bounded_append_two.
  - intros stepName ok. unfold report_thoughts. by apply bounded_append_one.
Qed.

Lemma thoughts_bounded_six_witness :
  let st5 := mkState "t" "executing" 50 "" "" ["1"; "2"; "3"; "4"; "5"] 0 in
  (length (thoughtProcess (current_state (Some st5) st5)) <= 6)%nat /\
  bounded_append (stored_tp (Some st5)) (report_thoughts (Some st5) (Some "x") true).
Proof.
  intros st5. split; [simpl; lia|].
  refine (proj2 (thoughts_bounded_six (Some st5) st5 _ _) (Some "x") true);
    simpl; lia.
Defined.

(** C5 (counterexample): after starting task "a" and then task "b", asking
    for the state of "a" returns the state of "b". *)
Lemma getTaskState_other_task :
  let ia := mkState "a" "executing" 10 "" "" [] 0 in
  let ib := mkState "b" "executing" 20 "" "" [] 0 in
  option_map taskId (getTaskState "a" (run (boot ∅) [EvStart "a" ia; EvStart "b" ib]))
    = Some "b".
Proof. vm_compute. reflexivity. Qed.

(** C5 (amended): the worker keeps one task state, under [activeTask]; each
    start overwrites it with the new task's initial state, and
    [getTaskState] ignores the task it is asked about. *)
Theorem single_task_slot (s : Bg) (a b req : string) (ia ib : TaskPollingState) :
  getTaskState req (run s [EvStart a ia]) = Some (with_taskId ia a) /\
  getTaskState req (run s [EvStart a ia; EvStart b ib]) = Some (with_taskId ib b) /\
  (forall req', getTaskState req' s = getTaskState req s).
Proof.
  unfold getTaskState. simpl.
  split; [apply lookup_insert_eq | split; [apply lookup_insert_eq | done]].
Qed.

Lemma with_taskId_self (task : TaskPollingState) : with_taskId task (taskId task) = task.
Proof. by destruct task. Qed.

(** C7: on startup, a persisted non-terminal task last updated more than one
    hour ago is set to error "Task timed out" and not polled; a more recent
    non-terminal one is polled again (its state stays as stored); a terminal
    one is left alone. *)
Theorem startup_recovery (now : Z) (stored : gmap string TaskPollingState)
    (task : TaskPollingState) :
  stored !! "activeTask" = Some task ->
  (terminal (status task) = false -> 60 * 60 * 1000 < now - lastUpdated task ->
   storage (startup now (boot stored)) !! "activeTask"
     = Some (with_status task "error" "Task timed out") /\
   activePolling (startup now (boot stored)) = ∅) /\
  (terminal (status task) = false -> now - lastUpdated task <= 60 * 60 * 1000 ->
   storage (startup now (boot stored)) !! "activeTask" = Some task /\
   activePolling (startup now (boot stored)) !! taskId task = Some task) /\
  (terminal (status task) = true -> startup now (boot stored) = boot stored).
Proof.
  intros Hst. unfold startup. simpl. rewrite Hst.
  split; [|split].
  - intros Ht Hstale. apply Z.ltb_lt in Hstale. rewrite Hstale, Ht. simpl.
    split; [apply lookup_insert_eq | done].
  - intros Ht Hstale. apply Z.ltb_ge in Hstale. rewrite Hstale, Ht. simpl.
    rewrite with_taskId_self. split; apply lookup_insert_eq.
  - intros Ht. rewrite Ht. by destruct (_ <? _).
Qed.

Lemma startup_recovery_witness :
  let task := mkState "t" "executing" 40 "" "" [] 0 in
  let stored : gmap string TaskPollingState := {["activeTask" := task]} in
  storage (startup 7200000 (boot stored)) !! "activeTask"
    = Some (with_status task "error" "Task timed out") /\
  activePolling (startup 7200000 (boot stored)) = ∅.
Proof.
  intros task stored.
  refine (proj1 (startup_recovery 7200000 stored task _) _ _);
    [reflexivity | reflexivity | vm_compute; reflexivity].
Defined.

Lemma apply_effects_frame (t t' : string) (effs : list Effect) (s : Bg) :
  activePolling s !! t = None ->
  activePolling (foldl (apply_effect t') s effs) !! t = None /\
  inflight (foldl (apply_effect t') s effs) = inflight s.
Proof.
  revert s. induction effs as [|e effs IH]; intros s Hs; simpl; [done|].
  destruct (IH (apply_effect t' s e)) as [H1 H2].
  - destruct e; simpl; try done.
    destruct (decide (t' = t)) as [->|Hne];
      [apply lookup_delete_eq | by rewrite lookup_delete_ne].
  - split; [done|]. rewrite H2. by destruct e.
Qed.

Lemma resolve_effects (s : Bg) (k : nat) (t : string) (init : TaskPollingState)
    (now : Z) (resp : option StatusReply) (effs : list Effect) :
  inflight s !! k = Some (t, init) ->
  poll_tick t init now resp (storage s !! "activeTask") = effs ->
  handle s (EvResolve k now resp)
    = foldl (apply_effect t)
        (mkBg (storage s) (activePolling s) (delete k (inflight s)) (notifications s))
        effs.
Proof. intros Hk Hp. unfold handle. rewrite Hk. cbv beta iota zeta. by rewrite Hp. Qed.

(** Once the interval of [t] is cleared, no event other than a new start
    of [t] creates one again, and no new tick of [t] enters the flight. *)
Lemma stopped_stays (t : string) (s0 : Bg) (evs : list Event) (s : Bg) :
  (forall init, EvStart t init ∉ evs) ->
  activePolling s !! t = None ->
  (forall x, x ∈ inflight s -> fst x = t -> x ∈ inflight s0) ->
  activePolling (run s evs) !! t = None /\
  (forall x, x ∈ inflight (run s evs) -> fst x = t -> x ∈ inflight s0).
Proof.
  revert s. induction evs as [|ev evs IH]; intros s Hev Hp Hin; [done|].
  change (run s (ev :: evs)) with (run (handle s ev) evs). apply IH.
  - intros init Hi. apply (Hev init). apply elem_of_cons. by right.
  - destruct ev as [t' init|t'|t'|k now resp]; simpl.
    + assert (t' <> t) by (intros ->; apply (Hev init); apply elem_of_cons; by left).
      by rewrite lookup_insert_ne.
    + destruct (decide (t' = t)) as [->|Hne];
        [apply lookup_delete_eq | by rewrite lookup_delete_ne].
    + by destruct (activePolling s !! t').
    + destruct (inflight s !! k) as [[t'' init]|]; [|done].
      by apply apply_effects_frame.
  - destruct ev as [t' init|t'|t'|k now resp]; simpl; try exact Hin.
    + destruct (activePolling s !! t') eqn:Ha; simpl; [|exact Hin].
      intros x Hx Hf. apply elem_of_app in Hx as [Hx|Hx]; [by apply Hin|].
      apply list_elem_of_singleton in Hx. subst x. simpl in Hf. subst t'.
      congruence.
    + destruct (inflight s !! k) as [[t'' init]|]; [|exact Hin].
      intros x Hx Hf.
      rewrite (proj2 (apply_effects_frame t t'' _ (mkBg (storage s) (activePolling s)
                 (delete k (inflight s)) (notifications s)) Hp)) in Hx.
      simpl in Hx.
      apply Hin; [eapply list_elem_of_delete_inv; eauto | done].
Qed.

(** C4 (counterexample): a tick observing [failed] stops polling and saves
    the error, but shows no notification. *)
Lemma terminal_error_no_notification :
  let init := mkState "t" "executing" 10 "" "" [] 0 in
  let s := run (boot ∅) [EvStart "t" init; EvFire "t";
             EvResolve 0 1 (Some (mkReply "failed" None None None (Some "boom")))] in
  notifications s = [] /\ activePolling s !! "t" = None /\
  option_map status (storage s !! "activeTask") = Some "error".
Proof. vm_compute. split; [reflexivity | split; reflexivity]. Qed.

(** Two ticks of one task in flight at once, both answered [completed]:
    each shows the completion notification. *)
Lemma overlapping_ticks_notify_twice :
  let init := mkState "t" "executing" 10 "" "" [] 0 in
  let done := mkReply "completed" None None None None in
  length (notifications (run (boot ∅) [EvStart "t" init; EvFire "t"; EvFire "t";
            EvResolve 0 1 (Some done); EvResolve 0 2 (Some done)])) = 2%nat.
Proof. vm_compute. reflexivity. Qed.

(** C4 (amended): a tick observing completed/success or failed/error has
    [stopPollingTask] as its first effect; it shows one notification when
    the task completed and none when it failed; the interval of the task is
    then gone, and as long as the task is not started again it stays gone
    and no new tick of it is started. *)
Theorem terminal_tick_stops_polling (s : Bg) (k : nat) (t : string)
    (init : TaskPollingState) (now : Z) (data : StatusReply) :
  inflight s !! k = Some (t, init) ->
  is_done (r_status data) || is_failed (r_status data) = true ->
  head (poll_tick t init now (Some data) (storage s !! "activeTask")) = Some Stop /\
  length (notifications (handle s (EvResolve k now (Some data))))
    = (length (notifications s) + (if is_done (r_status data) then 1 else 0))%nat /\
  activePolling (handle s (EvResolve k now (Some data))) !! t = None /\
  (forall evs, (forall init', EvStart t init' ∉ evs) ->
     activePolling (run (handle s (EvResolve k now (Some data))) evs) !! t = None /\
     (forall x, x ∈ inflight (run (handle s (EvResolve k now (Some data))) evs) ->
        fst x = t -> x ∈ inflight (handle s (EvResolve k now (Some data))))).
Proof.
  intros Hk Hterm.
  assert (Hstop : exists rest, poll_tick t init now (Some data) (storage s !! "activeTask")
            = Stop :: rest /\
          length (notifications (foldl (apply_effect t)
             (stop_polling t (mkBg (storage s) (activePolling s) (delete k (inflight s))
                                   (notifications s))) rest))
            = (length (notifications s) + (if is_done (r_status data) then 1 else 0))%nat /\
          activePolling (foldl (apply_effect t)
             (stop_polling t (mkBg (storage s) (activePolling s) (delete k (inflight s))
                                   (notifications s))) rest) !! t = None).
  { unfold poll_tick. destruct (is_done (r_status data)) eqn:Ed; simpl in Hterm.
    - eexists. split; [reflexivity|]. simpl. rewrite length_app. simpl.
      split; [lia | apply lookup_delete_eq].
    - rewrite Hterm. eexists. split; [reflexivity|]. simpl.
      split; [lia | apply lookup_delete_eq]. }
  destruct Hstop as (rest & Hpt & Hlen & Hap).
  rewrite (resolve_effects s k t init now (Some data) _ Hk Hpt). simpl foldl.
  rewrite Hpt. split; [done|]. split; [done|]. split; [done|].
  intros evs Hev. by apply stopped_stays.
Qed.

Lemma terminal_tick_stops_polling_witness :
  let init := mkState "t" "executing" 10 "" "" [] 0 in
  let s := run (boot ∅) [EvStart "t" init; EvFire "t"] in
  let data := mkReply "completed" None None None None in
  activePolling (handle s (EvResolve 0 1 (Some data))) !! "t" = None.
Proof.
  intros init s data.
  exact (proj1 (proj2 (proj2
    (terminal_tick_stops_polling s 0 "t" init 1 data eq_refl eq_refl)))).
Defined.

Lemma popup_update_continue (data : StatusReply) (st : PopupState) :
  non_terminal_status (r_status data) = true ->
  exists st1, popup_update data st = (st1, true).
Proof.
  unfold non_terminal_status, popup_update. intros H.
  destruct (is_done _), (is_failed _), (is_waiting _); simpl in H; try discriminate.
  eexists. reflexivity.
Qed.

Lemma popup_poll_timeout (replies : nat -> option StatusReply) (m : nat) :
  forall attempts st fuel,
  (attempts + m = 60)%nat -> (m < fuel)%nat ->
  (forall j, (attempts <= j)%nat -> (j < 60)%nat -> reply_continues (replies j) = true) ->
  exists st', popup_poll fuel replies attempts st = (st', m) /\
    p_status st' = "error" /\ p_message st' = "Task timed out".
Proof.
  induction m as [|m IH]; intros attempts st fuel Ha Hf Hr;
    (destruct fuel as [|f]; [lia|]); cbn [popup_poll].
  - replace attempts with 60%nat by lia. eexists. split; [reflexivity | split; reflexivity].
  - rewrite (proj2 (Nat.leb_gt 60 attempts)) by lia.
    assert (Hc := Hr attempts ltac:(lia) ltac:(lia)).
    destruct (replies attempts) as [data|].
    + destruct (popup_update_continue data st Hc) as [st1 Hu]. rewrite Hu.
      destruct (IH (S attempts) st1 f) as (st' & Hp & Hs & Hm);
        [lia | lia | intros j ??; apply Hr; lia |].
      rewrite Hp. eauto.
    + destruct (IH (S attempts) st f) as (st' & Hp & Hs & Hm);
        [lia | lia | intros j ??; apply Hr; lia |].
      rewrite Hp. eauto.
Qed.

Lemma poll_tick_continues (t : string) (init : TaskPollingState) (now : Z)
    (data : StatusReply) (stored : option TaskPollingState) :
  worker_continues (Some data) = true ->
  exists u, poll_tick t init now (Some data) stored = [Save u; SetBadge (badge_of u)] /\
    status u = saved_status (r_status data) /\ taskId u = t.
Proof.
  unfold worker_continues, saved_status, poll_tick. intros H.
  destruct (is_done _), (is_failed _); simpl in H; try discriminate.
  destruct (is_waiting _); eexists; (split; [reflexivity|]); done.
Qed.

(** One event of the ticks of [t]: the interval of [t] and the
    notifications are untouched, pending ticks stay ticks of [t], and the
    stored state is either kept or replaced by one saved from a reply. *)
Lemma tick_step (t : string) (init : TaskPollingState) (s : Bg) (ev : Event) :
  activePolling s !! t = Some init ->
  (forall x, x ∈ inflight s -> fst x = t) ->
  tick_of t ev ->
  activePolling (handle s ev) !! t = Some init /\
  (forall x, x ∈ inflight (handle s ev) -> fst x = t) /\
  notifications (handle s ev) = notifications s.
Proof.
  intros Hp Hi Hev. destruct ev as [t' i'|t'|t'|k now resp]; simpl in Hev;
    try contradiction.
  - subst t'. simpl. rewrite Hp. simpl. split; [done|]. split; [|done].
    intros x Hx. apply elem_of_app in Hx as [Hx|Hx]; [by apply Hi|].
    apply list_elem_of_singleton in Hx. by subst x.
  - destruct (inflight s !! k) as [[t1 init1]|] eqn:Hk; [|simpl; rewrite Hk; auto].
    assert (Ht1 : t1 = t) by exact (Hi _ (list_elem_of_lookup_2 _ _ _ Hk)). subst t1.
    destruct resp as [data|].
    + destruct (poll_tick_continues t init1 now data (storage s !! "activeTask") Hev)
        as (u & Hpt & _).
      rewrite (resolve_effects s k t init1 now (Some data) _ Hk Hpt). simpl.
      split; [done|]. split; [|done].
      intros x Hx. apply Hi. by apply list_elem_of_delete_inv in Hx.
    + rewrite (resolve_effects s k t init1 now None [] Hk eq_refl). simpl.
      split; [done|]. split; [|done].
      intros x Hx. apply Hi. by apply list_elem_of_delete_inv in Hx.
Qed.

Lemma ticks_keep_polling (t : string) (init : TaskPollingState) (evs : list Event) :
  forall s,
  activePolling s !! t = Some init ->
  (forall x, x ∈ inflight s -> fst x = t) ->
  Forall (tick_of t) evs ->
  activePolling (run s evs) !! t = Some init /\
  (forall x, x ∈ inflight (run s evs) -> fst x = t) /\
  notifications (run s evs) = notifications s.
Proof.
  induction evs as [|ev evs IH]; intros s Hp Hi Hevs; [done|].
  inversion Hevs as [|? ? Hev Hrest]; subst.
  destruct (tick_step t init s ev Hp Hi Hev) as (Hp1 & Hi1 & Hn1).
  destruct (IH (handle s ev) Hp1 Hi1 Hrest) as (Hp2 & Hi2 & Hn2).
  unfold run. cbn [foldl]. fold (run (handle s ev) evs).
  split; [done|]. split; [done|]. by rewrite Hn2, Hn1.
Qed.

(** A pending tick of [t] settling: with a reply, it saves that reply's
    status for task [t]; after a failed fetch, storage is unchanged. *)
Lemma tick_resolve_saves (t : string) (s : Bg) (k : nat) (now : Z) :
  (forall x, x ∈ inflight s -> fst x = t) ->
  is_Some (inflight s !! k) ->
  (forall data, worker_continues (Some data) = true ->
     exists u, storage (handle s (EvResolve k now (Some data))) !! "activeTask" = Some u /\
       status u = saved_status (r_status data) /\ taskId u = t) /\
  storage (handle s (EvResolve k now None)) = storage s.
Proof.
  intros Hi [[t1 init1] Hk].
  assert (Ht1 : t1 = t) by exact (Hi _ (list_elem_of_lookup_2 _ _ _ Hk)). subst t1.
  split.
  - intros data Hc.
    destruct (poll_tick_continues t init1 now data (storage s !! "activeTask") Hc)
      as (u & Hpt & Hs & Hid).
    rewrite (resolve_effects s k t init1 now (Some data) _ Hk Hpt). simpl.
    exists u. split; [apply lookup_insert_eq|done].
  - by rewrite (resolve_effects s k t init1 now None [] Hk eq_refl).
Qed.

(** C8 (counterexample): the worker's interval still runs, and the task is
    not in error, after 61 ticks that all report [executing]. *)
Lemma monitor_polls_past_sixty :
  let init := mkState "t" "executing" 10 "" "" [] 0 in
  let s := run (boot ∅) (EvStart "t" init ::
             rounds "t" 1 (mkReply "executing" None None None None) 61) in
  activePolling s !! "t" = Some init /\
  option_map status (storage s !! "activeTask") = Some "executing".
Proof. vm_compute. split; reflexivity. Qed.

(** C8 (amended): the worker has no attempt ceiling.  Along any sequence of
    events of the ticks of [t] (its interval firing, possibly with several
    fetches pending at once, and fetches settling as failures or with any
    reply other than completed/success/failed/error, progress and step
    free to change), the interval of [t] keeps running, no notification is
    shown, and at every point a pending tick that gets a reply saves that
    reply's status for task [t] ([waiting_intervention] saved as
    [waiting]) while a failed fetch saves nothing.  The ceiling is the
    popup's: when no fetch of [pollTaskStatus] sees a terminal or waiting
    status, it stops after 60 fetches with status error "Task timed out". *)
Theorem monitor_no_attempt_ceiling (s : Bg) (t : string) (init : TaskPollingState)
    (evs : list Event) (replies : nat -> option StatusReply) (st : PopupState) :
  activePolling s !! t = Some init ->
  (forall x, x ∈ inflight s -> fst x = t) ->
  Forall (tick_of t) evs ->
  (forall j, (j < 60)%nat -> reply_continues (replies j) = true) ->
  (activePolling (run s evs) !! t = Some init /\
   notifications (run s evs) = notifications s /\
   (forall k now, is_Some (inflight (run s evs) !! k) ->
      (forall data, worker_continues (Some data) = true ->
         exists u, storage (handle (run s evs) (EvResolve k now (Some data)))
                     !! "activeTask" = Some u /\
           status u = saved_status (r_status data) /\ taskId u = t) /\
      storage (handle (run s evs) (EvResolve k now None)) = storage (run s evs))) /\
  (exists st', pollTaskStatus replies st = (st', 60%nat) /\
     p_status st' = "error" /\ p_message st' = "Task timed out").
Proof.
  intros Hp Hi Hevs Hr.
  destruct (ticks_keep_polling t init evs s Hp Hi Hevs) as (Ha & Hi' & Hn).
  split.
  - split; [done|]. split; [done|].
    intros k now Hk. by apply tick_resolve_saves.
  - apply popup_poll_timeout; [lia | lia | intros j _ Hj; by apply Hr].
Qed.

(** Two overlapping ticks of a running task: the first fetch fails, the
    second is answered [executing] with a new progress. *)
Lemma monitor_no_attempt_ceiling_witness :
  let init := mkState "t" "executing" 10 "" "" [] 0 in
  let s := run (boot ∅) [EvStart "t" init] in
  let evs := [EvFire "t"; EvFire "t"; EvResolve 1 1 None;
              EvResolve 0 2 (Some (mkReply "executing" (Some 40) None None None))] in
  Forall (tick_of "t") evs /\
  activePolling (run s evs) !! "t" = Some init /\
  (exists st', pollTaskStatus (fun _ => None) (mkPopup "executing" 0 "" "" []) = (st', 60%nat) /\
     p_status st' = "error" /\ p_message st' = "Task timed out").
Proof.
  intros init s evs.
  assert (Hevs : Forall (tick_of "t") evs) by (repeat constructor).
  assert (Hi : forall x, x ∈ inflight s -> fst x = "t").
  { intros x Hx. simpl in Hx. exfalso. by apply not_elem_of_nil in Hx. }
  destruct (monitor_no_attempt_ceiling s "t" init evs (fun _ => None)
              (mkPopup "executing" 0 "" "" []) eq_refl Hi Hevs
              (fun _ _ => eq_refl)) as [[Ha _] Hp].
  split; [done|]. split; [exact Ha | exact Hp].
Defined.

End Monitor.

(* ================================================================= *)
(** ** Task graph rendering: [levelGroups] of the [TaskGraph] component *)

Module TaskGraphView.

Import TaskGraph.

(** A JavaScript [Map<number, GraphNode[]>], as its entries in insertion
    order; [map_get m k] is [m.get(k)]. *)
Fixpoint map_get (m : list (nat * list GraphNode)) (k : nat) : option (list GraphNode) :=
  match m with
  | [] => None
  | (k', v) :: r => if Nat.eqb k' k then Some v else map_get r k
  end.

(** [m.set(k, v)]: a key already present keeps its place. *)
Fixpoint map_set (m : list (nat * list GraphNode)) (k : nat) (v : list GraphNode)
    : list (nat * list GraphNode) :=
  match m with
  | [] => [(k, v)]
  | (k', v') :: r => if Nat.eqb k' k then (k, v) :: r else (k', v') :: map_set r k v
  end.

(** The body of [graphNodes.forEach]:
    [const level = groups.get(node.level) || []; level.push(node);
     groups.set(node.level, level)]. *)
Definition group_node (groups : list (nat * list GraphNode)) (node : GraphNode)
    : list (nat * list GraphNode) :=
  let lvl := match map_get groups (level node) with Some g => g | None => [] end in
  map_set groups (level node) (lvl ++ [node]).

(** The order of the comparator [(a, b) => a[0] - b[0]]. *)
Definition key_le (a b : nat * list GraphNode) : Prop := (fst a <= fst b)%nat.

#[global] Instance key_le_dec : RelDecision key_le.
Proof. intros a b. unfold key_le. apply _. Defined.

(** The [levelGroups] memo:
    [Array.from(groups.entries()).sort((a, b) => a[0] - b[0])].
    [Array.prototype.sort] is stable, as stdpp's [merge_sort] is; the keys
    of a [Map] are distinct, so both give the one list sorted by key. *)
Definition levelGroups (graphNodes : list GraphNode) : list (nat * list GraphNode) :=
  merge_sort key_le (foldl group_node [] graphNodes).

Definition keys (m : list (nat * list GraphNode)) : list nat := map fst m.

#[global] Instance key_le_trans : Transitive key_le.
Proof. unfold key_le. intros ???. lia. Qed.

#[global] Instance key_le_total : Total key_le.
Proof. unfold key_le. intros ??. lia. Qed.

Lemma map_get_None m k : k ∉ keys m -> map_get m k = None.
Proof.
  induction m as [|[k' v] r IH]; simpl; [done|].
  intros Hk. rewrite not_elem_of_cons in Hk. destruct Hk as [Hne Hk].
  destruct (Nat.eqb_spec k' k); [congruence|]. by apply IH.
Qed.

Lemma map_get_in m k g : map_get m k = Some g -> (k, g) ∈ m.
Proof.
  induction m as [|[k' v] r IH]; simpl; [done|].
  destruct (Nat.eqb_spec k' k) as [->|]; intros H.
  - injection H as ->. by left.
  - right. by apply IH.
Qed.

Lemma map_get_Some m k g : NoDup (keys m) -> (k, g) ∈ m -> map_get m k = Some g.
Proof.
  induction m as [|[k' v] r IH]; simpl; [intros _ H; by apply elem_of_nil in H|].
  intros Hnd Hin. apply NoDup_cons in Hnd as [Hk' Hnd].
  apply elem_of_cons in Hin as [Heq|Hin].
  - injection Heq as -> ->. by rewrite Nat.eqb_refl.
  - destruct (Nat.eqb_spec k' k) as [->|]; [|by apply IH].
    exfalso. apply Hk'. apply list_elem_of_In, in_map_iff.
    exists (k, g). split; [done|]. by apply list_elem_of_In.
Qed.

Lemma map_set_keys m k v : k ∈ keys m -> keys (map_set m k v) = keys m.
Proof.
  induction m as [|[k' v'] r IH]; simpl; [intros H; by apply elem_of_nil in H|].
  intros Hk. destruct (Nat.eqb_spec k' k) as [->|Hne]; [done|].
  simpl. f_equal. apply IH. apply elem_of_cons in Hk as [->|Hk]; [congruence|done].
Qed.

Lemma map_set_new m k v : k ∉ keys m -> map_set m k v = m ++ [(k, v)].
Proof.
  induction m as [|[k' v'] r IH]; simpl; [done|].
  intros Hk. rewrite not_elem_of_cons in Hk. destruct Hk as [Hne Hk].
  destruct (Nat.eqb_spec k' k); [congruence|]. by rewrite IH.
Qed.

Lemma map_set_elem m k v l g :
  NoDup (keys m) ->
  (l, g) ∈ map_set m k v <-> (l = k /\ g = v) \/ (l <> k /\ (l, g) ∈ m).
Proof.
  induction m as [|[k' v'] r IH]; simpl; intros Hnd.
  - rewrite list_elem_of_singleton, elem_of_nil. naive_solver.
  - apply NoDup_cons in Hnd as [Hk' Hnd].
    assert (Hr : forall g', (l, g') ∈ r -> l <> k').
    { intros g' Hin ->. apply Hk'. apply list_elem_of_In, in_map_iff.
      exists (k', g'). split; [done|]. by apply list_elem_of_In. }
    destruct (Nat.eqb_spec k' k) as [->|Hne].
    + rewrite !elem_of_cons. split.
      * intros [Heq|Hin]; [injection Heq as -> ->; by left|].
        right. split; [by apply (Hr g)|by right].
      * intros [[-> ->]|[Hlk [Heq|Hin]]]; [by left| |by right].
        injection Heq as -> ->. congruence.
    + rewrite !elem_of_cons, IH by done. split.
      * intros [Heq|[[-> ->]|[Hlk Hin]]].
        -- injection Heq as -> ->. right. split; [done|by left].
        -- by left.
        -- right. split; [done|by right].
      * intros [[-> ->]|[Hlk [Heq|Hin]]].
        -- right. by left.
        -- by left.
        -- right. right. by split.
Qed.

Lemma keys_NoDup_elem_inj m a b :
  NoDup (keys m) -> a ∈ m -> b ∈ m -> fst a = fst b -> a = b.
Proof.
  intros Hnd Ha Hb. apply list_elem_of_In in Ha, Hb.
  apply (NoDup_map_in_inj fst m); [|done..]. exact Hnd.
Qed.

(** The [Map] after [forEach] over [ys]: distinct keys, and the entry of
    level [l] is the nodes of [ys] at level [l], in order. *)
Definition grouped (ys : list GraphNode) (m : list (nat * list GraphNode)) : Prop :=
  NoDup (keys m) /\
  forall l g, (l, g) ∈ m <-> g = filter (fun n => level n = l) ys /\ g <> [].

Lemma grouped_nil : grouped [] [].
Proof.
  split; [constructor|]. intros l g. rewrite elem_of_nil. simpl. naive_solver.
Qed.

Lemma grouped_step ys m x : grouped ys m -> grouped (ys ++ [x]) (group_node m x).
Proof.
  intros [Hnd Hm]. unfold group_node.
  set (old := filter (fun n => level n = level x) ys).
  assert (Hget : match map_get m (level x) with Some g => g | None => [] end = old).
  { destruct (map_get m (level x)) as [g|] eqn:E.
    - apply map_get_in in E. by apply Hm in E as [-> _].
    - destruct (decide (old = [])) as [|Hne]; [done|]. exfalso.
      assert (Hin : (level x, old) ∈ m) by (by apply Hm).
      rewrite (map_get_Some m (level x) old Hnd Hin) in E. discriminate. }
  rewrite Hget. split.
  - destruct (decide (level x ∈ keys m)) as [Hk|Hk].
    + by rewrite map_set_keys.
    + rewrite map_set_new by done. unfold keys. rewrite map_app.
      apply NoDup_app. split; [done|]. split; [|apply NoDup_singleton].
      intros y Hy Hy'. apply list_elem_of_singleton in Hy'. simpl in Hy'.
      subst y. done.
  - intros l g. rewrite map_set_elem by done. rewrite filter_app, Hm.
    change (filter (fun n => level n = l) [x])
      with (if decide (level x = l) then [x] else []).
    destruct (decide (level x = l)) as [<-|Hne].
    + fold old. split.
      * intros [[_ ->]|[Hne _]]; [|done]. split; [done|]. by destruct old.
      * intros [-> _]. by left.
    + rewrite app_nil_r. naive_solver.
Qed.

Lemma grouped_foldl xs ys m :
  grouped ys m -> grouped (ys ++ xs) (foldl group_node m xs).
Proof.
  revert ys m. induction xs as [|x xs IH]; intros ys m H; simpl.
  - by rewrite app_nil_r.
  - replace (ys ++ x :: xs) with ((ys ++ [x]) ++ xs) by by rewrite <- app_assoc.
    apply IH. by apply grouped_step.
Qed.

Lemma strict_of_key_le l :
  StronglySorted key_le l -> NoDup (keys l) ->
  StronglySorted (fun a b => (fst a < fst b)%nat) l.
Proof.
  induction 1 as [|x l Hl IH Hx]; intros Hnd; constructor.
  - apply IH. unfold keys in Hnd. simpl in Hnd. by apply NoDup_cons in Hnd as [_ ?].
  - unfold keys in Hnd. simpl in Hnd. apply NoDup_cons in Hnd as [Hx' _].
    rewrite Forall_forall in Hx |- *. intros y Hy.
    assert (fst x <> fst y).
    { intros Heq. apply Hx'. rewrite Heq. apply list_elem_of_In, in_map_iff.
      exists y. split; [done|]. by apply list_elem_of_In. }
    specialize (Hx y Hy). unfold key_le in Hx. lia.
Qed.

Lemma levelGroups_members nodes :
  NoDup (keys (levelGroups nodes)) /\
  forall l g, (l, g) ∈ levelGroups nodes <->
    g = filter (fun n => level n = l) nodes /\ g <> [].
Proof.
  destruct (grouped_foldl nodes [] [] grouped_nil) as [Hnd Hm].
  pose proof (merge_sort_Permutation key_le (foldl group_node [] nodes)) as Hp.
  unfold levelGroups. split.
  - unfold keys. by rewrite Hp.
  - intros l g. rewrite Hp. apply Hm.
Qed.

Lemma levelGroups_sorted nodes :
  StronglySorted (fun a b => (fst a < fst b)%nat) (levelGroups nodes).
Proof.
  apply strict_of_key_le; [apply StronglySorted_merge_sort; apply _|].
  apply levelGroups_members.
Qed.

Definition level_le (a b : GraphNode) : Prop := (level a <= level b)%nat.

Lemma place_level_new lvl grp cur processed nodes :
  exists new, (place_level lvl grp cur processed nodes).2 = nodes ++ new /\
    Forall (fun n => level n = lvl /\ parallelGroup n = grp) new.
Proof.
  revert processed nodes. induction cur as [|s rest IH]; intros processed nodes; simpl.
  - exists []. by rewrite app_nil_r.
  - destruct (bool_decide (id s ∈ processed)); [apply IH|].
    destruct (IH ({[id s]} ∪ processed) (nodes ++ [mkNode s lvl grp])) as (new & Hn & Hf).
    exists (mkNode s lvl grp :: new). rewrite Hn, <- app_assoc. split; [done|].
    constructor; [done|exact Hf].
Qed.

Lemma sorted_same_level lvl grp l :
  Forall (fun n => level n = lvl /\ parallelGroup n = grp) l -> StronglySorted level_le l.
Proof.
  induction l as [|a l IH]; intros Hf; constructor; inversion Hf as [|? ? [Ha _] Hl]; subst.
  - by apply IH.
  - eapply Forall_impl; [exact Hl|]. intros n [Hn _]. unfold level_le. lia.
Qed.

Lemma bfs_order fuel steps lvl cur processed nodes :
  StronglySorted level_le nodes ->
  Forall (fun n => (level n < lvl)%nat /\
             (parallelGroup n = None \/ parallelGroup n = Some (level n))) nodes ->
  StronglySorted level_le (bfs fuel steps lvl cur processed nodes) /\
  Forall (fun n => parallelGroup n = None \/ parallelGroup n = Some (level n))
         (bfs fuel steps lvl cur processed nodes).
Proof.
  revert lvl cur processed nodes.
  induction fuel as [|f IH]; intros lvl cur processed nodes Hs Hf.
  - split; [done|]. eapply Forall_impl; [exact Hf|]. by intros n [_ ?].
  - destruct cur as [|s rest].
    { split; [done|]. eapply Forall_impl; [exact Hf|]. by intros n [_ ?]. }
    rewrite bfs_S_cons.
    set (grp := if Nat.ltb 1 (length (s :: rest)) then Some lvl else None).
    destruct (place_level_new lvl grp (s :: rest) processed nodes) as (new & Hn & Hnew).
    destruct (place_level lvl grp (s :: rest) processed nodes) as [p' n'] eqn:E.
    simpl in Hn. subst n'. apply IH.
    + apply StronglySorted_app_2; [|done|by eapply sorted_same_level].
      intros a b Ha Hb. rewrite Forall_forall in Hf, Hnew.
      destruct (Hf a Ha) as [? _]. destruct (Hnew b Hb) as [? _].
      unfold level_le. lia.
    + apply Forall_app. split.
      * eapply Forall_impl; [exact Hf|]. intros n [? ?]. split; [lia|done].
      * eapply Forall_impl; [exact Hnew|]. intros n [Hl Hg]. split; [lia|].
        rewrite Hg, Hl. unfold grp. destruct (Nat.ltb _ _); auto.
Qed.

(** The [Map] built from a list of nodes sorted by level: its entries are
    the runs of equal level, in order. *)
Definition runs_ok (ys : list GraphNode) (m : list (nat * list GraphNode)) : Prop :=
  concat (map snd m) = ys /\
  StronglySorted (fun a b => (fst a < fst b)%nat) m /\
  Forall (fun e => snd e <> [] /\ Forall (fun n => level n = fst e) (snd e)) m.

Lemma keys_of_strict m :
  StronglySorted (fun a b => (fst a < fst b)%nat) m -> NoDup (keys m).
Proof.
  induction 1 as [|x l Hl IH Hx]; unfold keys; simpl; constructor; [|exact IH].
  intros Hin. apply list_elem_of_In, in_map_iff in Hin as (y & Hy & Hin).
  rewrite Forall_forall in Hx. specialize (Hx y (proj2 (list_elem_of_In _ _) Hin)).
  lia.
Qed.

Lemma strict_to_key_le m :
  StronglySorted (fun a b => (fst a < fst b)%nat) m -> StronglySorted key_le m.
Proof.
  induction 1 as [|x l Hl IH Hx]; constructor; [done|].
  eapply Forall_impl; [exact Hx|]. unfold key_le. intros; lia.
Qed.

Lemma map_set_last m1 k g v : k ∉ keys m1 -> map_set (m1 ++ [(k, g)]) k v = m1 ++ [(k, v)].
Proof.
  induction m1 as [|[k' v'] r IH]; simpl; [by rewrite Nat.eqb_refl|].
  intros Hk. rewrite not_elem_of_cons in Hk. destruct Hk as [Hne Hk].
  destruct (Nat.eqb_spec k' k); [congruence|]. by rewrite IH.
Qed.

Lemma map_get_last m1 k g : k ∉ keys m1 -> map_get (m1 ++ [(k, g)]) k = Some g.
Proof.
  induction m1 as [|[k' v'] r IH]; simpl; [by rewrite Nat.eqb_refl|].
  intros Hk. rewrite not_elem_of_cons in Hk. destruct Hk as [Hne Hk].
  destruct (Nat.eqb_spec k' k); [congruence|]. by apply IH.
Qed.

Lemma in_runs (ys : list GraphNode) (m : list (nat * list GraphNode)) e y :
  concat (map snd m) = ys -> e ∈ m -> y ∈ snd e -> y ∈ ys.
Proof.
  intros <- He Hy. apply list_elem_of_In in He, Hy. apply list_elem_of_In.
  apply in_concat. exists (snd e). split; [by apply in_map|done].
Qed.

Lemma runs_step ys m x :
  runs_ok ys m -> (forall y, y ∈ ys -> (level y <= level x)%nat) ->
  runs_ok (ys ++ [x]) (group_node m x).
Proof.
  intros (Hc & Hs & Hf) Hx. unfold group_node.
  rewrite Forall_forall in Hf.
  destruct (decide (level x ∈ keys m)) as [Hk|Hk].
  - apply list_elem_of_In, in_map_iff in Hk as ([k g] & Hkx & Hin).
    simpl in Hkx. subst k. apply list_elem_of_In in Hin.
    apply list_elem_of_split in Hin as (m1 & m2 & ->).
    assert (m2 = []) as ->.
    { destruct m2 as [|e2 m2]; [done|]. exfalso.
      apply StronglySorted_app_1_r in Hs.
      apply StronglySorted_cons in Hs as [Hlt _].
      apply Forall_cons in Hlt as [Hlt _]. simpl in Hlt.
      assert (He2 : e2 ∈ m1 ++ (level x, g) :: e2 :: m2)
        by (apply elem_of_app; right; right; left).
      destruct (Hf e2 He2) as [Hne Hlv].
      destruct (snd e2) as [|y l] eqn:Ey; [done|].
      apply Forall_cons in Hlv as [Hy _].
      assert (y ∈ ys) by (apply (in_runs ys _ e2 y Hc He2); rewrite Ey; left).
      specialize (Hx y H). lia. }
    assert (Hk1 : level x ∉ keys m1).
    { intros Hin. apply list_elem_of_In, in_map_iff in Hin as (e1 & He1 & Hin).
      apply list_elem_of_In in Hin.
      pose proof (StronglySorted_app_1_elem_of _ _ _ e1 (level x, g) Hs Hin
                    ltac:(by left)) as Hlt.
      simpl in Hlt. lia. }
    rewrite map_get_last, map_set_last by done.
    split; [|split].
    + rewrite map_app, concat_app in Hc |- *. simpl in Hc |- *.
      rewrite <- Hc. rewrite ?app_nil_r. by rewrite app_assoc.
    + apply StronglySorted_app in Hs as (Hx1 & Hs1 & _).
      apply StronglySorted_app_2; [|done|repeat constructor].
      intros a b Ha Hb. apply list_elem_of_singleton in Hb. subst b.
      apply (Hx1 a (level x, g) Ha ltac:(by left)).
    + apply Forall_forall. intros e He.
      apply elem_of_app in He as [He|He].
      * apply Hf, elem_of_app. by left.
      * apply list_elem_of_singleton in He. subst e. simpl.
        assert (Hg : (level x, g) ∈ m1 ++ [(level x, g)])
          by (apply elem_of_app; right; left).
        destruct (Hf _ Hg) as [_ Hlv]. simpl in Hlv.
        split; [by destruct g|]. apply Forall_app. split; [done|by constructor].
  - rewrite map_get_None, map_set_new by done. simpl.
    split; [|split].
    + rewrite map_app, concat_app, Hc. simpl. by rewrite ?app_nil_r.
    + apply StronglySorted_app_2; [|done|repeat constructor].
      intros a b Ha Hb. apply list_elem_of_singleton in Hb. subst b. simpl.
      destruct (Hf a Ha) as [Hne Hlv].
      destruct (snd a) as [|y l] eqn:Ea; [done|].
      apply Forall_cons in Hlv as [Hy _].
      assert (y ∈ ys) by (apply (in_runs ys m a y Hc Ha); rewrite Ea; left).
      specialize (Hx y H).
      assert (fst a <> level x).
      { intros Heq. apply Hk. rewrite <- Heq. apply list_elem_of_In, in_map.
        by apply list_elem_of_In. }
      lia.
    + apply Forall_app. split; [by apply Forall_forall|].
      repeat constructor. done.
Qed.

Lemma runs_foldl xs ys m :
  runs_ok ys m -> StronglySorted level_le (ys ++ xs) ->
  runs_ok (ys ++ xs) (foldl group_node m xs).
Proof.
  revert ys m. induction xs as [|x xs IH]; intros ys m Hr Hs; simpl.
  - by rewrite app_nil_r.
  - assert (Hx : forall y, y ∈ ys -> (level y <= level x)%nat).
    { intros y Hy. apply (StronglySorted_app_1_elem_of _ _ _ y x Hs Hy). by left. }
    replace (ys ++ x :: xs) with ((ys ++ [x]) ++ xs) in * by by rewrite <- app_assoc.
    apply IH; [|done]. by apply runs_step.
Qed.

Lemma levelGroups_concat nodes :
  StronglySorted level_le nodes -> concat (map snd (levelGroups nodes)) = nodes.
Proof.
  intros Hs.
  destruct (runs_foldl nodes [] [] ltac:(split; [done|split; constructor]) Hs)
    as (Hc & Hst & _).
  set (m := foldl group_node [] nodes) in *.
  assert (Hm : merge_sort key_le m = m).
  { pose proof (merge_sort_Permutation key_le m) as Hp.
    apply (Sorted_unique_strong key_le).
    - intros x1 x2 H1 H2 H12 H21. rewrite Hp in H1.
      apply (keys_NoDup_elem_inj m); [by apply keys_of_strict|done|done|].
      unfold key_le in *. lia.
    - apply Sorted_merge_sort. apply _.
    - apply StronglySorted_Sorted. by apply strict_to_key_le.
    - done. }
  unfold levelGroups. fold m. by rewrite Hm.
Qed.

(** *** The parallel tag of the placed nodes *)

Lemma NoDup_map_id_filter f (l : list TaskStep) :
  NoDup (map id l) -> NoDup (map id (List.filter f l)).
Proof.
  induction l as [|s l IH]; simpl; [done|].
  rewrite NoDup_cons. intros [Hs Hl].
  destruct (f s); simpl; [|by apply IH].
  rewrite NoDup_cons. split; [|by apply IH].
  intros Hin. apply Hs. apply list_elem_of_In, in_map_iff in Hin as (t & Ht & Hin).
  apply filter_In in Hin as [Hin _]. apply list_elem_of_In, in_map_iff.
  by exists t.
Qed.

Lemma place_level_fresh lvl grp cur processed nodes :
  NoDup (map id cur) -> (forall s, In s cur -> id s ∉ processed) ->
  (place_level lvl grp cur processed nodes).2 =
    nodes ++ map (fun s => mkNode s lvl grp) cur.
Proof.
  revert processed nodes.
  induction cur as [|s rest IH]; intros processed nodes Hnd Hfr; simpl.
  - by rewrite app_nil_r.
  - simpl in Hnd. rewrite NoDup_cons in Hnd. destruct Hnd as [Hs Hnd].
    rewrite bool_decide_eq_false_2 by (apply Hfr; by left).
    rewrite IH, <- app_assoc; [done|done|].
    intros t Ht. rewrite not_elem_of_union, not_elem_of_singleton. split.
    + intros Heq. apply Hs. rewrite <- Heq. apply list_elem_of_In, in_map. done.
    + apply Hfr. by right.
Qed.

Lemma filter_level_all lvl (l : list GraphNode) :
  Forall (fun n => level n = lvl) l -> filter (fun n => level n = lvl) l = l.
Proof.
  induction 1 as [|x l Hx Hl IH]; [done|].
  rewrite filter_cons. destruct (decide (level x = lvl)); [|done]. by rewrite IH.
Qed.

Lemma filter_level_none lvl (l : list GraphNode) :
  Forall (fun n => level n <> lvl) l -> filter (fun n => level n = lvl) l = [].
Proof.
  induction 1 as [|x l Hx Hl IH]; [done|].
  rewrite filter_cons. by destruct (decide (level x = lvl)).
Qed.

(** Every node carries the tag of its level's size. *)
Definition tag_ok (nodes : list GraphNode) : Prop :=
  forall n, n ∈ nodes ->
    parallelGroup n =
      if Nat.ltb 1 (length (filter (fun m => level m = level n) nodes))
      then Some (level n) else None.

Lemma bfs_tags fuel steps lvl cur processed nodes :
  NoDup (map id steps) -> NoDup (map id cur) ->
  (forall s, In s cur -> id s ∉ processed) ->
  Forall (fun n => (level n < lvl)%nat) nodes -> tag_ok nodes ->
  tag_ok (bfs fuel steps lvl cur processed nodes).
Proof.
  revert lvl cur processed nodes.
  induction fuel as [|f IH]; intros lvl cur processed nodes Hst Hnd Hfr Hlt Htag;
    [done|].
  destruct cur as [|s rest]; [done|].
  rewrite bfs_S_cons.
  set (grp := if Nat.ltb 1 (length (s :: rest)) then Some lvl else None).
  pose proof (place_level_fresh lvl grp (s :: rest) processed nodes Hnd Hfr) as Hp.
  destruct (place_level lvl grp (s :: rest) processed nodes) as [p' n'] eqn:E.
  cbn [snd] in Hp. subst n'.
  set (new := map (fun s => mkNode s lvl grp) (s :: rest)).
  assert (Hnew : Forall (fun n => level n = lvl /\ parallelGroup n = grp) new).
  { apply Forall_forall. intros n Hn. apply list_elem_of_In, in_map_iff in Hn
      as (t & <- & _). done. }
  apply IH.
  - done.
  - unfold next_level. by apply NoDup_map_id_filter.
  - intros t Ht. unfold next_level in Ht. apply filter_In in Ht as [_ Ht].
    apply andb_prop in Ht as [Ht _]. apply negb_true_iff in Ht.
    by apply bool_decide_eq_false in Ht.
  - apply Forall_app. split.
    + eapply Forall_impl; [exact Hlt|]. intros x Hx. simpl in Hx |- *. lia.
    + eapply Forall_impl; [exact Hnew|]. intros n [-> _]. lia.
  - intros n Hn. rewrite filter_app.
    rewrite Forall_forall in Hlt, Hnew.
    apply elem_of_app in Hn as [Hn|Hn].
    + rewrite (filter_level_none (level n) new), app_nil_r; [by apply Htag|].
      apply Forall_forall. intros m Hm. destruct (Hnew m Hm) as [-> _].
      specialize (Hlt n Hn). lia.
    + destruct (Hnew n Hn) as [Hl Hg].
      rewrite Hl, (filter_level_none lvl nodes), (filter_level_all lvl new).
      * rewrite Hg. unfold new, grp. cbn [app]. rewrite length_map. done.
      * apply Forall_forall. intros m Hm. by destruct (Hnew m Hm).
      * apply Forall_forall. intros m Hm. specialize (Hlt m Hm). lia.
Qed.

Lemma graphNodes_tags steps :
  NoDup (map id steps) -> tag_ok (graphNodes steps).
Proof.
  intros Hst. unfold graphNodes. apply bfs_tags; [done| |done|done|].
  - unfold root_steps. by apply NoDup_map_id_filter.
  - intros n Hn. by apply elem_of_nil in Hn.
Qed.

(** ** Properties of [levelGroups] and [graphNodes] *)

(** [levelGroups] lists each level present among the nodes exactly once, in
    increasing order of level, paired with the nodes of that level in their
    original order. *)
Theorem levelGroups_spec (nodes : list GraphNode) :
  StronglySorted (fun a b => (fst a < fst b)%nat) (levelGroups nodes) /\
  forall l g, (l, g) ∈ levelGroups nodes <->
    g = filter (fun n => level n = l) nodes /\ g <> [].
Proof. split; [apply levelGroups_sorted | apply levelGroups_members]. Qed.

(** The nodes built by [graphNodes] come in non-decreasing order of level,
    each one tagged with no parallel group or with the group of its own
    level; hence concatenating the groups of [levelGroups] gives back
    exactly the node list. *)
Theorem graphNodes_level_order (steps : list TaskStep) :
  StronglySorted level_le (graphNodes steps) /\
  Forall (fun n => parallelGroup n = None \/ parallelGroup n = Some (level n))
         (graphNodes steps) /\
  concat (map snd (levelGroups (graphNodes steps))) = graphNodes steps.
Proof.
  destruct (bfs_order (S (length steps)) steps 0 (root_steps steps) ∅ []
              ltac:(constructor) ltac:(constructor)) as [Hs Hf].
  fold (graphNodes steps) in Hs, Hf.
  split; [done|split; [done|]]. by apply levelGroups_concat.
Qed.

(** When step ids are distinct, every node of a displayed level group
    carries the parallel tag of that level exactly when the group has more
    than one node, and no tag otherwise. *)
Theorem levelGroups_parallel_tag (steps : list TaskStep) l g :
  NoDup (map id steps) ->
  (l, g) ∈ levelGroups (graphNodes steps) ->
  Forall (fun n => parallelGroup n = if Nat.ltb 1 (length g) then Some l else None) g.
Proof.
  intros Hst Hin. apply levelGroups_members in Hin as [-> Hne].
  apply Forall_forall. intros n Hn.
  pose proof Hn as Hn'. apply list_elem_of_filter in Hn' as [<- Hn'].
  by apply graphNodes_tags.
Qed.

Lemma levelGroups_parallel_tag_witness :
  let steps := [mkStep "a" []; mkStep "b" []; mkStep "c" ["a"; "b"]] in
  let g := [mkNode (mkStep "a" []) 0 (Some 0%nat);
            mkNode (mkStep "b" []) 0 (Some 0%nat)] in
  NoDup (map id steps) /\ (0%nat, g) ∈ levelGroups (graphNodes steps) /\
  Forall (fun n => parallelGroup n = if Nat.ltb 1 (length g) then Some 0%nat else None) g.
Proof.
  intros steps g.
  assert (H1 : NoDup (map id steps)) by (apply (bool_decide_unpack _); vm_compute; reflexivity).
  assert (H2 : (0%nat, g) ∈ levelGroups (graphNodes steps))
    by (vm_compute; left).
  split; [exact H1|split; [exact H2|]].
  exact (levelGroups_parallel_tag steps 0 g H1 H2).
Defined.

End TaskGraphView.

(* ================================================================= *)
(** ** Content script: the [executeSteps] handler and step reports *)

Module ContentScript.

Import ExecuteStep.

Local Open Scope Z_scope.

Section Steps.

(** [Step]: a plan step as sent by the worker; [succeeds s] is
    [result.success] of [await executeStep(taskId, s)]. *)
Context {Step : Type} (succeeds : Step -> bool).

(** Observable events of the handler: [inl s] is a call of [executeStep]
    on [s], [inr ms] a pacing [setTimeout] of [ms] milliseconds. *)
Fixpoint run_steps (steps : list Step) : list (Step + Z) :=
  match steps with
  | [] => []
  | s :: rest =>
      if succeeds s then inl s :: inr 300 :: run_steps rest
      else [inl s]
  end.

(** The [executeSteps] case of the message listener: the events, then the
    response [{success, message}]. *)
Definition executeSteps (steps : list Step) : list (Step + Z) * (bool * string) :=
  (run_steps steps, (true, "Execution finished")).

End Steps.

(** JSON values (the forms a step report carries). *)
#[warnings="-register-all"]
Inductive Json :=
| JUndef
| JNull
| JBool (b : bool)
| JNum (z : Z)
| JStr (s : string)
| JObj (fields : list (string * Json)).

(** [obj[k]] *)
Fixpoint obj_get (fs : list (string * Json)) (k : string) : Json :=
  match fs with
  | [] => JUndef
  | (k', v) :: r => if String.eqb k' k then v else obj_get r k
  end.

Definition field (j : Json) (k : string) : Json :=
  match j with JObj fs => obj_get fs k | _ => JUndef end.

(** [obj[k] = v]: in place when [k] is a key, appended otherwise. *)
Fixpoint obj_set (fs : list (string * Json)) (k : string) (v : Json)
    : list (string * Json) :=
  match fs with
  | [] => [(k, v)]
  | (k', v') :: r => if String.eqb k' k then (k, v) :: r else (k', v') :: obj_set r k v
  end.

(** [{...fs, ...src}] *)
Definition spread (fs src : list (string * Json)) : list (string * Json) :=
  foldl (fun acc kv => obj_set acc kv.1 kv.2) fs src.

Fixpoint dec_aux (fuel n : nat) (acc : string) : string :=
  match fuel with
  | O => acc
  | S f =>
      let acc' := String (Ascii.ascii_of_nat (48 + n mod 10)) acc in
      if Nat.ltb n 10 then acc' else dec_aux f (n / 10) acc'
  end.

(** [String(n)] for a natural number. *)
Definition dec_nat (n : nat) : string := dec_aux (S n) n "".

Fixpoint str_entries (i : nat) (s : string) : list (string * Json) :=
  match s with
  | EmptyString => []
  | String c r => (dec_nat i, JStr (String c EmptyString)) :: str_entries (S i) r
  end.

(** The own properties a spread [...v] copies. *)
Definition spread_source (v : Json) : list (string * Json) :=
  match v with
  | JObj fs => fs
  | JStr s => str_entries 0 s
  | _ => []
  end.

Definition json_truthy (v : Json) : bool :=
  match v with
  | JUndef | JNull => false
  | JBool b => b
  | JNum z => negb (Z.eqb z 0)
  | JStr s => negb (String.eqb s "")
  | JObj _ => true
  end.

(** [a || b] *)
Definition json_or (a b : Json) : Json := if json_truthy a then a else b.

(** [JSON.stringify] / message passing: keys whose value is [undefined]
    are dropped, at every depth. *)
Fixpoint json_clean (j : Json) : Json :=
  match j with
  | JObj fs =>
      JObj ((fix go (fs : list (string * Json)) : list (string * Json) :=
               match fs with
               | [] => []
               | (k, JUndef) :: r => go r
               | (k, v) :: r => (k, json_clean v) :: go r
               end) fs)
  | _ => j
  end.

Definition json_keys (j : Json) : list string :=
  match j with JObj fs => map fst fs | _ => [] end.

(** [sendStepResult(taskId, stepId, stepName, success, payload, meta)]: the
    message given to [chrome.runtime.sendMessage]; [now] is [Date.now()]. *)
Definition sendStepResult_msg (taskId stepId : string) (stepName : Json)
    (success : bool) (payload : Json) (meta : list (string * Json)) (now : Z) : Json :=
  JObj [("action", JStr "stepResult"); ("taskId", JStr taskId);
        ("stepId", JStr stepId); ("stepName", stepName);
        ("success", JBool success); ("data", payload);
        ("meta", JObj (spread [("timestamp", JNum now)] meta))].

(** The body the worker's [stepResult] handler posts to
    [/agent/tasks/{taskId}/report], before [JSON.stringify]. *)
Definition report_body (message : Json) (now : Z) : Json :=
  JObj [("step_id", field message "stepId");
        ("step_name", field message "stepName");
        ("success", field message "success");
        ("data", field message "data");
        ("error", field message "error");
        ("meta", JObj (spread [("forwarded_at", JNum now)]
                        (spread_source (json_or (field message "meta") (JObj [])))))].

(** The report of failed attempt [a] with message [msg], as the backend
    receives it. *)
Definition failed_report (taskId stepId : string) (stepName : Json) (a : Z)
    (msg : string) (now now' : Z) : Json :=
  json_clean (report_body
    (json_clean (sendStepResult_msg taskId stepId stepName false (JObj [])
                   [("attempt", JNum a); ("error", JStr msg)] now)) now').

(** ** Properties *)

(** When every [executeStep] call resolves, [executeSteps] runs the steps
    in order, pausing 300 ms after each success; it stops right after the
    first step whose [executeStep] fails, so no later step is run; and it
    answers [{success: true, message: "Execution finished"}], even after a
    failure. *)
Theorem executeSteps_stops_at_first_failure {Step : Type} (succeeds : Step -> bool) :
  (forall steps, Forall (fun p => succeeds p = true) steps ->
     executeSteps succeeds steps =
       (flat_map (fun p => [inl p; inr 300]) steps, (true, "Execution finished"))) /\
  (forall pre s post,
     Forall (fun p => succeeds p = true) pre -> succeeds s = false ->
     executeSteps succeeds (pre ++ s :: post) =
       (flat_map (fun p => [inl p; inr 300]) pre ++ [inl s],
        (true, "Execution finished"))).
Proof.
  unfold executeSteps. split.
  - induction steps as [|p steps IH]; intros Hok; [done|].
    apply Forall_cons in Hok as [Hp Hok]. simpl. rewrite Hp.
    injection (IH Hok) as ->. done.
  - induction pre as [|p pre IH]; intros s post Hok Hs; simpl.
    + by rewrite Hs.
    + apply Forall_cons in Hok as [Hp Hok]. rewrite Hp.
      injection (IH s post Hok Hs) as ->. done.
Qed.

(** With a negative [payload.retries] the [for] loop never runs:
    [executeStep] makes no attempt, sends no report and fails with
    "Unknown failure". *)
Theorem executeStep_negative_retries {D : Type} (r : Z) (act : Z -> string + D) :
  r < 0 ->
  executeStep_retry (Some r) act = ([], mkResult false None (Some "Unknown failure")).
Proof.
  intros Hr. unfold executeStep_retry, retries_of.
  rewrite (proj2 (Z.eqb_neq r 0)) by lia.
  replace (Z.to_nat r) with 0%nat by lia. reflexivity.
Qed.

Lemma executeStep_negative_retries_witness :
  (-2 < 0) /\
  @executeStep_retry unit (Some (-2)) (fun _ => inr tt) =
    ([], mkResult false None (Some "Unknown failure")).
Proof.
  split; [lia|]. apply executeStep_negative_retries. lia.
Defined.

(** The error of a failed attempt never reaches the backend's [error]
    field: [sendStepResult] puts it in [meta], the worker reads a top-level
    [error] that is absent, so the posted body has no [error] key; the
    message is only found as [meta.error], and [success] is [false]. *)
Theorem failed_report_error_in_meta_only (taskId stepId : string) (stepName : Json)
    (a : Z) (msg : string) (now now' : Z) :
  ("error" ∉ json_keys (failed_report taskId stepId stepName a msg now now')) /\
  field (field (failed_report taskId stepId stepName a msg now now') "meta") "error"
    = JStr msg /\
  field (failed_report taskId stepId stepName a msg now now') "success" = JBool false.
Proof.
  destruct stepName; cbn; (split; [|split; reflexivity]);
    rewrite ?not_elem_of_cons; repeat split; try done; apply not_elem_of_nil.
Qed.

End ContentScript.

(* ================================================================= *)
(** ** Service worker and popup: further handlers *)

Module MonitorExtra.

Import Monitor.

Local Open Scope Z_scope.

(** The states an effect list writes to [activeTask], in order. *)
Definition saves (effs : list Effect) : list TaskPollingState :=
  flat_map (fun e => match e with Save u => [u] | _ => [] end) effs.

(** Messages of the worker's listener beyond those of [Event]. *)
Inductive Msg :=
| MEvent (ev : Event)
| MClearTaskState.               (** [clearTaskState] *)

(** [clearTaskState]: [chrome.storage.local.remove(['activeTask'])]. *)
Definition clear_task_state (s : Bg) : Bg :=
  mkBg (delete "activeTask" (storage s)) (activePolling s) (inflight s) (notifications s).

Definition handle_msg (s : Bg) (m : Msg) : Bg :=
  match m with
  | MEvent ev => handle s ev
  | MClearTaskState => clear_task_state s
  end.

Definition run_msgs (s : Bg) (ms : list Msg) : Bg := foldl handle_msg s ms.

(** The [stepResult] handler, once its report is answered with [json]
    ([json_status], [json_progress] being [json.status], [json.progress]):
    the object written back to [activeTask] when it holds [state]; [now] is
    [Date.now()]. *)
Definition report_update (json_status : option string)
    (json_progress : option Z) (stepName : option string) (ok : bool) (now : Z)
    (state : TaskPollingState) : TaskPollingState :=
  mkState (taskId state)
          (js_or json_status (status state))
          (js_or_num json_progress (progress state))
          (js_or stepName (currentStep state))
          (message state)
          (report_thoughts (Some state) stepName ok)
          now.

(** [saveToHistory(cmd)] of the popup, on the current [history]. *)
Definition saveToHistory (history : list string) (cmd : string) : list string :=
  take 5 (cmd :: filter (fun h => h <> cmd) history).

Section Format.

(** [show n] is the JavaScript rendering of the number [n] in a template
    literal. *)
Context (show : Z -> string).

(** [formatDuration(seconds)] of the plan preview, on a whole number of
    seconds. *)
Definition formatDuration (seconds : Z) : string :=
  if seconds <? 60 then show seconds ++ " seconds"
  else
    let minutes := seconds / 60 in
    let remainingSeconds := seconds mod 60 in
    if minutes <? 60 then
      if 0 <? remainingSeconds
      then show minutes ++ "m " ++ show remainingSeconds ++ "s"
      else show minutes ++ " minutes"
    else
      let hours := minutes / 60 in
      let remainingMinutes := minutes mod 60 in
      show hours ++ "h " ++ show remainingMinutes ++ "m".

End Format.

(** *** Lemmas *)

Lemma apply_effects_storage (t : string) (effs : list Effect) :
  forall s, storage (foldl (apply_effect t) s effs) !! "activeTask" =
    match last (saves effs) with
    | Some u => Some u
    | None => storage s !! "activeTask"
    end.
Proof.
  induction effs as [|e effs IH]; intros s; [done|].
  simpl foldl. rewrite IH.
  destruct e as [| | u |]; simpl; try reflexivity.
  - rewrite last_cons. destruct (last (saves effs)); [done|].
    apply lookup_insert_eq.
Qed.

Lemma poll_tick_saves (tid : string) (init : TaskPollingState) (now : Z)
    (data : StatusReply) (stored : option TaskPollingState) :
  exists u, saves (poll_tick tid init now (Some data) stored) = [u] /\
    taskId u = tid /\ lastUpdated u = now /\
    (is_done (r_status data) = true -> status u = "complete" /\ progress u = 100) /\
    (is_done (r_status data) = false ->
       r_progress_percent data = None \/ r_progress_percent data = Some 0 ->
       progress u = progress (current_state stored init)).
Proof.
  unfold poll_tick.
  destruct (is_done (r_status data)) eqn:Ed.
  - eexists. split; [reflexivity|]. repeat split; done.
  - assert (Hp : r_progress_percent data = None \/ r_progress_percent data = Some 0 ->
                 js_or_num (r_progress_percent data) (progress (current_state stored init))
                   = progress (current_state stored init)).
    { intros [-> | ->]; reflexivity. }
    destruct (is_failed (r_status data)), (is_waiting (r_status data));
      (eexists; split; [reflexivity|]); repeat split; done.
Qed.

Lemma popup_update_stop (data : StatusReply) (st : PopupState) :
  non_terminal_status (r_status data) = false ->
  exists st1, popup_update data st = (st1, false) /\
    p_status st1 = (if is_done (r_status data) then "complete"
                    else if is_failed (r_status data) then "error" else "waiting").
Proof.
  unfold non_terminal_status, popup_update. intros H.
  destruct (is_done _), (is_failed _), (is_waiting _); simpl in H; try discriminate;
    eexists; split; reflexivity.
Qed.

Lemma popup_poll_stop (replies : nat -> option StatusReply) (k : nat)
    (data : StatusReply) (m : nat) :
  forall attempts st fuel,
  (attempts + m = k)%nat -> (k < 60)%nat -> (m < fuel)%nat ->
  (forall j, (attempts <= j)%nat -> (j < k)%nat -> reply_continues (replies j) = true) ->
  replies k = Some data -> non_terminal_status (r_status data) = false ->
  exists st', popup_poll fuel replies attempts st = (st', S m) /\
    p_status st' = (if is_done (r_status data) then "complete"
                    else if is_failed (r_status data) then "error" else "waiting").
Proof.
  induction m as [|m IH]; intros attempts st fuel Ha Hk Hf Hr Hd Hs;
    (destruct fuel as [|f]; [lia|]); cbn [popup_poll];
    rewrite (proj2 (Nat.leb_gt 60 attempts)) by lia.
  - replace attempts with k by lia. rewrite Hd.
    destruct (popup_update_stop data st Hs) as (st1 & Hu & Hst). rewrite Hu. eauto.
  - assert (Hc := Hr attempts ltac:(lia) ltac:(lia)).
    destruct (replies attempts) as [d|].
    + destruct (popup_update_continue d st Hc) as [st1 Hu]. rewrite Hu.
      destruct (IH (S attempts) st1 f) as (st' & Hp & Hst);
        [lia | lia | lia | intros j ??; apply Hr; lia | done | done |].
      rewrite Hp. eauto.
    + destruct (IH (S attempts) st f) as (st' & Hp & Hst);
        [lia | lia | lia | intros j ??; apply Hr; lia | done | done |].
      rewrite Hp. eauto.
Qed.

Lemma filter_ne_all (l : list string) (c : string) :
  c ∉ l -> filter (fun h => h <> c) l = l.
Proof.
  induction l as [|x l IH]; intros Hc; [done|].
  apply not_elem_of_cons in Hc as [Hx Hc].
  rewrite filter_cons_True by congruence. by rewrite IH.
Qed.

Lemma not_in_take_filter (l : list string) (c : string) (n : nat) :
  c ∉ take n (filter (fun h => h <> c) l).
Proof.
  intros Hx. apply elem_of_take in Hx as (i & Hi & _).
  apply list_elem_of_lookup_2 in Hi. by apply list_elem_of_filter in Hi as [? _].
Qed.

(** *** Properties *)

(** A tick whose fetch failed or answered not-ok does nothing.  A tick
    with a reply saves exactly one state, carrying the tick's task id and
    time; on completed/success its status is complete and its progress
    100; otherwise a reply without [progress_percent], or with [0], keeps
    the previous progress (the stored state's, or the initial one's when
    nothing is stored). *)
Theorem poll_tick_saved_state (tid : string) (init : TaskPollingState) (now : Z)
    (stored : option TaskPollingState) :
  poll_tick tid init now None stored = [] /\
  forall data, exists u,
    saves (poll_tick tid init now (Some data) stored) = [u] /\
    taskId u = tid /\ lastUpdated u = now /\
    (is_done (r_status data) = true -> status u = "complete" /\ progress u = 100) /\
    (is_done (r_status data) = false ->
       r_progress_percent data = None \/ r_progress_percent data = Some 0 ->
       progress u = progress (current_state stored init)).
Proof. split; [reflexivity | intros data; apply poll_tick_saves]. Qed.

(** On a failed/error reply without [error_message], both the worker's
    saved state and the popup's state read "Task failed", while the log
    line appended last reads "❌ undefined". *)
Theorem failed_without_error_message (tid : string) (init : TaskPollingState)
    (now : Z) (stored : option TaskPollingState) (st : PopupState)
    (data : StatusReply) :
  is_failed (r_status data) = true -> r_error_message data = None ->
  (exists u, saves (poll_tick tid init now (Some data) stored) = [u] /\
     status u = "error" /\ message u = "Task failed" /\
     last (thoughtProcess u) = Some "❌ undefined") /\
  (exists st1, popup_update data st = (st1, false) /\
     p_status st1 = "error" /\ p_message st1 = "Task failed" /\
     last (p_thoughtProcess st1) = Some "❌ undefined").
Proof.
  intros Hf He.
  assert (Hd : is_done (r_status data) = false).
  { unfold is_failed in Hf. apply orb_true_iff in Hf as [H|H];
      apply String.eqb_eq in H; unfold is_done; by rewrite H. }
  unfold poll_tick, popup_update. rewrite Hd, Hf, He. split.
  - eexists. split; [reflexivity|]. split; [done|]. split; [done|]. apply last_snoc.
  - eexists. split; [reflexivity|]. split; [done|]. split; [done|]. apply last_snoc.
Qed.

Lemma failed_without_error_message_witness :
  let data := mkReply "failed" None None None None in
  is_failed (r_status data) = true /\ r_error_message data = None /\
  exists u, saves (poll_tick "t" (mkState "t" "executing" 10 "" "" [] 0) 1
                     (Some data) None) = [u] /\ message u = "Task failed" /\
            last (thoughtProcess u) = Some "❌ undefined".
Proof.
  intros data. split; [reflexivity|]. split; [reflexivity|].
  destruct (proj1 (failed_without_error_message "t" (mkState "t" "executing" 10 "" "" [] 0)
                     1 None (mkPopup "executing" 0 "" "" []) data eq_refl eq_refl))
    as (u & Hs & _ & Hm & Hl).
  exists u. split; [exact Hs|]. split; [exact Hm | exact Hl].
Defined.

(** A stored task whose status a [stepResult] report set to the backend's
    "completed" is not finished for the startup cleanup, which only knows
    "complete" and "error": when the report is more than one hour old the
    task is marked error "Task timed out", otherwise its polling is started
    again. *)
Theorem step_report_completed_not_final (json_progress : option Z)
    (stepName : option string) (ok : bool) (tnow now : Z) (state : TaskPollingState) :
  let u := report_update (Some "completed") json_progress stepName ok tnow state in
  status u = "completed" /\ terminal (status u) = false /\
  (60 * 60 * 1000 < now - tnow ->
     storage (startup now (boot {[ "activeTask" := u ]})) !! "activeTask"
       = Some (with_status u "error" "Task timed out")) /\
  (now - tnow <= 60 * 60 * 1000 ->
     activePolling (startup now (boot {[ "activeTask" := u ]})) !! taskId state
       = Some u).
Proof.
  intros u.
  assert (Hst : status u = "completed") by reflexivity.
  assert (Hl : lastUpdated u = tnow) by reflexivity.
  assert (Hid : taskId u = taskId state) by reflexivity.
  split; [done|]. split; [by rewrite Hst|].
  unfold startup, boot. cbn [storage]. rewrite lookup_singleton_eq, Hl, Hst.
  split.
  - intros Hlt. rewrite (proj2 (Z.ltb_lt _ _) Hlt). cbn [negb terminal storage].
    apply lookup_insert_eq.
  - intros Hle. rewrite (proj2 (Z.ltb_ge _ _) Hle). cbn [negb].
    change (terminal "completed") with false. cbn [negb activePolling start_polling].
    rewrite Hid. apply lookup_insert_eq.
Qed.

(** [clearTaskState] removes the stored task but leaves its polling
    running: the next tick of the task stores a state for it again, built
    on the initial state the interval was started with. *)
Theorem clearTaskState_keeps_polling (s : Bg) (t : string) (init : TaskPollingState)
    (now : Z) (data : StatusReply) :
  activePolling s !! t = Some init -> inflight s = [] ->
  getTaskState t (run_msgs s [MClearTaskState]) = None /\
  activePolling (run_msgs s [MClearTaskState]) !! t = Some init /\
  exists u,
    getTaskState t (run_msgs s [MClearTaskState; MEvent (EvFire t);
                                MEvent (EvResolve 0 now (Some data))]) = Some u /\
    taskId u = t /\
    (is_done (r_status data) = false -> r_progress_percent data = None ->
       progress u = progress init).
Proof.
  intros Hp Hi. unfold getTaskState, run_msgs. cbn [foldl handle_msg].
  split; [apply lookup_delete_eq|]. split; [done|].
  replace (handle (clear_task_state s) (EvFire t))
    with (mkBg (delete "activeTask" (storage s)) (activePolling s)
               [(t, init)] (notifications s))
    by (simpl; rewrite Hp, Hi; reflexivity).
  destruct (poll_tick_saves t init now data None) as (u & Hsv & Ht & _ & _ & Hprog).
  rewrite (resolve_effects (mkBg (delete "activeTask" (storage s)) (activePolling s)
                               [(t, init)] (notifications s))
             0 t init now (Some data) _ eq_refl eq_refl).
  rewrite apply_effects_storage. simpl storage.
  rewrite lookup_delete_eq, Hsv. simpl.
  exists u. split; [done|]. split; [done|].
  intros Hd Hn. apply Hprog; [done | by left].
Qed.

Lemma clearTaskState_keeps_polling_witness :
  let init := mkState "t" "executing" 10 "" "" [] 0 in
  let s := run (boot ∅) [EvStart "t" init] in
  activePolling s !! "t" = Some init /\ inflight s = [] /\
  activePolling (run_msgs s [MClearTaskState]) !! "t" = Some init.
Proof.
  intros init s.
  assert (Hp : activePolling s !! "t" = Some init) by reflexivity.
  assert (Hi : inflight s = []) by reflexivity.
  split; [exact Hp|]. split; [exact Hi|].
  exact (proj1 (proj2 (clearTaskState_keeps_polling s "t" init 0
                         (mkReply "executing" None None None None) Hp Hi))).
Defined.

(** After a [stopTaskPolling] message for [t], as long as [t] is not
    started again its interval stays cleared and no new tick of [t] is
    started: only ticks already in flight can still settle. *)
Theorem stopTaskPolling_message_stops (s : Bg) (t : string) (evs : list Event) :
  (forall init, EvStart t init ∉ evs) ->
  activePolling (run s (EvStopMsg t :: evs)) !! t = None /\
  (forall x, x ∈ inflight (run s (EvStopMsg t :: evs)) -> fst x = t -> x ∈ inflight s).
Proof.
  intros Hev. change (run s (EvStopMsg t :: evs)) with (run (handle s (EvStopMsg t)) evs).
  apply stopped_stays; [done | apply lookup_delete_eq | done].
Qed.

Lemma stopTaskPolling_message_stops_witness :
  let init := mkState "t" "executing" 10 "" "" [] 0 in
  let s := run (boot ∅) [EvStart "t" init] in
  (forall i, EvFire "t" ≠ EvStart "t" i) /\
  activePolling (run s [EvStopMsg "t"; EvFire "t"]) !! "t" = None.
Proof.
  intros init s.
  assert (Hev : forall i, EvStart "t" i ∉ [EvFire "t"]).
  { intros i Hi. apply list_elem_of_singleton in Hi. discriminate. }
  split; [intros i; discriminate|].
  exact (proj1 (stopTaskPolling_message_stops s "t" [EvFire "t"] Hev)).
Defined.

(** The popup's [pollTaskStatus] stops at the first reply whose status is
    completed/success, failed/error or waiting_intervention, when it comes
    within the 60 attempts: with that reply at attempt [k], it makes [k+1]
    fetches and ends with status complete, error or waiting; after
    waiting it does not poll again. *)
Theorem pollTaskStatus_stops_on_answer (replies : nat -> option StatusReply)
    (st : PopupState) (k : nat) (data : StatusReply) :
  (k < 60)%nat ->
  (forall j, (j < k)%nat -> reply_continues (replies j) = true) ->
  replies k = Some data -> non_terminal_status (r_status data) = false ->
  exists st', pollTaskStatus replies st = (st', S k) /\
    p_status st' = (if is_done (r_status data) then "complete"
                    else if is_failed (r_status data) then "error" else "waiting").
Proof.
  intros Hk Hr Hd Hs. unfold pollTaskStatus.
  apply (popup_poll_stop replies k data k 0 st 61); try lia; try done.
  intros j _ Hj. by apply Hr.
Qed.

Lemma pollTaskStatus_stops_on_answer_witness :
  let replies := fun j : nat => if Nat.ltb j 3 then None
                                else Some (mkReply "waiting_intervention" None None None None) in
  exists st', pollTaskStatus replies (mkPopup "executing" 30 "" "" []) = (st', 4%nat) /\
    p_status st' = "waiting".
Proof.
  intros replies.
  exact (pollTaskStatus_stops_on_answer replies (mkPopup "executing" 30 "" "" []) 3
           (mkReply "waiting_intervention" None None None None)
           ltac:(lia)
           ltac:(intros j Hj; unfold replies; rewrite (proj2 (Nat.ltb_lt j 3)) by lia;
                 reflexivity)
           eq_refl eq_refl).
Defined.

(** [saveToHistory] puts the command first and nowhere else; the other
    entries are earlier history entries in their order, at most four, so
    the history holds at most five; a new command pushes out all but the
    four most recent entries; and a history without duplicates stays
    without duplicates. *)
Theorem saveToHistory_spec (history : list string) (cmd : string) :
  exists rest, saveToHistory history cmd = cmd :: rest /\
    (cmd ∉ rest) /\ rest `sublist_of` history /\ (length rest <= 4)%nat /\
    (cmd ∉ history -> rest = take 4 history) /\
    (NoDup history -> NoDup (saveToHistory history cmd)).
Proof.
  exists (take 4 (filter (fun h => h <> cmd) history)).
  assert (Hsub : take 4 (filter (fun h => h <> cmd) history) `sublist_of` history).
  { transitivity (filter (fun h => h <> cmd) history);
      [apply sublist_take | apply sublist_filter]. }
  split; [reflexivity|]. split; [apply not_in_take_filter|].
  split; [done|]. split; [rewrite length_take; lia|]. split.
  - intros Hc. by rewrite filter_ne_all.
  - intros Hnd. unfold saveToHistory. cbn [take]. constructor.
    + apply not_in_take_filter.
    + by apply (sublist_NoDup _ history).
Qed.

(** Saving the same command twice in a row leaves the history as the
    first save left it. *)
Theorem saveToHistory_idempotent (history : list string) (cmd : string) :
  saveToHistory (saveToHistory history cmd) cmd = saveToHistory history cmd.
Proof.
  unfold saveToHistory. cbn [take].
  rewrite filter_cons_False by (intros H; by apply H).
  rewrite filter_ne_all by apply not_in_take_filter.
  cbn [take]. by rewrite take_take.
Qed.

(** For a whole number of seconds, [formatDuration] drops the seconds of
    durations of an hour or more (the result only depends on the whole
    minutes), and shows a whole number of minutes under an hour as
    "N minutes", never as "Nm 0s". *)
Theorem formatDuration_whole_minutes (show : Z -> string) (s : Z) :
  (3600 <= s -> formatDuration show s = formatDuration show (60 * (s / 60))) /\
  (60 <= s < 3600 -> s mod 60 = 0 -> formatDuration show s = (show (s / 60) ++ " minutes")%string).
Proof.
  unfold formatDuration. split.
  - intros Hs.
    assert (Hq : 60 <= s / 60) by (apply Z.div_le_lower_bound; lia).
    rewrite (proj2 (Z.ltb_ge s 60)) by lia.
    rewrite (proj2 (Z.ltb_ge (60 * (s / 60)) 60)) by lia.
    rewrite (Z.mul_comm 60 (s / 60)), Z.div_mul by lia.
    cbv zeta. rewrite (proj2 (Z.ltb_ge (s / 60) 60)) by lia. reflexivity.
  - intros Hs Hm.
    rewrite (proj2 (Z.ltb_ge s 60)) by lia.
    assert (Hq : s / 60 < 60) by (apply Z.div_lt_upper_bound; lia).
    cbv zeta. rewrite (proj2 (Z.ltb_lt (s / 60) 60)) by lia.
    rewrite Hm. reflexivity.
Qed.

End MonitorExtra.
